(** * Trace replay parser: a shallow embedding of [tools/trace_replay_parser.py]

    The tool reads every [*.log] entry of a trace session directory, turns each
    line that matches [LINE_RE] into an event, sorts the events of all the
    files by [(mono_ms, frame, file)] and prints a summary.

    Text is modelled as Python has it: a [str] is a sequence of Unicode code
    points.  Exceptions are an explicit [outcome]; standard output and standard
    error are the lists of lines that [print] wrote. *)

From Stdlib Require Import Decimal DecimalFacts DecimalPos DecimalN.
From Stdlib Require Import NArith Arith Bool Lia String Ascii Permutation List.
Import ListNotations.

Set Implicit Arguments.

Local Open Scope N_scope.
Local Open Scope list_scope.

(** ** Text *)

(** A character is a code point, a string is the list of its code points. *)
Definition char : Set := N.
Definition str : Set := list char.

(** The code points of an ASCII literal of the source. *)
Definition codes (s : string) : str :=
  List.map N_of_ascii (list_ascii_of_string s).

Definition char_eqb (a b : char) : bool := N.eqb a b.

Fixpoint str_eqb (a b : str) : bool :=
  match a, b with
  | [], [] => true
  | x :: a', y :: b' => char_eqb x y && str_eqb a' b'
  | _, _ => false
  end.

(** [a < b] on [str]: lexicographic on code points, a proper prefix first. *)
Fixpoint str_ltb (a b : str) : bool :=
  match a, b with
  | _, [] => false
  | [], _ :: _ => true
  | x :: a', y :: b' => (x <? y) || ((x =? y) && str_ltb a' b')
  end.

(** [p in s] on [str]: [p] occurs in [s] as a contiguous run. *)
Fixpoint starts_with (p s : str) : bool :=
  match p, s with
  | [], _ => true
  | _ :: _, [] => false
  | x :: p', y :: s' => char_eqb x y && starts_with p' s'
  end.

Fixpoint contains (p s : str) : bool :=
  starts_with p s ||
  match s with
  | [] => false
  | _ :: s' => contains p s'
  end.

Definition ends_with (p s : str) : bool :=
  starts_with (rev p) (rev s).

(** [s.rstrip("\n")]: every trailing line feed is removed. *)
Definition LF : char := 10.

Fixpoint rstrip_newline (s : str) : str :=
  match s with
  | [] => []
  | c :: s' =>
      match rstrip_newline s' with
      | [] => if c =? LF then [] else [c]
      | r => c :: r
      end
  end.

(** ** Character classes of the [re] module on [str] patterns *)

(** [\s]: the code points for which [str.isspace] holds. *)
Definition is_space (c : char) : bool :=
  ((9 <=? c) && (c <=? 13)) || ((28 <=? c) && (c <=? 32)) ||
  (c =? 133) || (c =? 160) || (c =? 5760) ||
  ((8192 <=? c) && (c <=? 8202)) || (c =? 8232) || (c =? 8233) ||
  (c =? 8239) || (c =? 8287) || (c =? 12288).

(** [\d]: the decimal digits of Unicode (category Nd, Unicode 14), as runs
    [(first, length)]; inside a run the digits 0..9 repeat in order. *)
Definition decimal_runs : list (N * N) :=
  [ (48, 10); (1632, 10); (1776, 10); (1984, 10); (2406, 10); (2534, 10);
    (2662, 10); (2790, 10); (2918, 10); (3046, 10); (3174, 10); (3302, 10);
    (3430, 10); (3558, 10); (3664, 10); (3792, 10); (3872, 10); (4160, 10);
    (4240, 10); (6112, 10); (6160, 10); (6470, 10); (6608, 10); (6784, 10);
    (6800, 10); (6992, 10); (7088, 10); (7232, 10); (7248, 10); (42528, 10);
    (43216, 10); (43264, 10); (43472, 10); (43504, 10); (43600, 10);
    (44016, 10); (65296, 10); (66720, 10); (68912, 10); (69734, 10);
    (69872, 10); (69942, 10); (70096, 10); (70384, 10); (70736, 10);
    (70864, 10); (71248, 10); (71360, 10); (71472, 10); (71904, 10);
    (72016, 10); (72784, 10); (73040, 10); (73120, 10); (92768, 10);
    (92864, 10); (93008, 10); (120782, 50); (123200, 10); (123632, 10);
    (125264, 10); (130032, 10) ].

Fixpoint digit_in (runs : list (N * N)) (c : char) : option N :=
  match runs with
  | [] => None
  | (first, len) :: runs' =>
      if (first <=? c) && (c <? first + len)
      then Some ((c - first) mod 10)
      else digit_in runs' c
  end.

(** The decimal value of a digit character, [None] for any other character. *)
Definition digit_value (c : char) : option N := digit_in decimal_runs c.

Definition is_digit (c : char) : bool :=
  match digit_value c with Some _ => true | None => false end.

(** ** Exceptions *)

Inductive exn : Set :=
| ValueError
| IsADirectoryError
| FileNotFoundError
| PermissionError
| OSError.

Inductive outcome (A : Type) : Type :=
| Ok (a : A)
| Raise (e : exn).

Arguments Ok {A} a.
Arguments Raise {A} e.

Definition bind {A B : Type} (m : outcome A) (k : A -> outcome B) : outcome B :=
  match m with
  | Ok a => k a
  | Raise e => Raise e
  end.

Notation "x <- m ;; k" := (bind m (fun x => k))
  (at level 61, m at next level, right associativity).

(** ** Integers and their decimal text *)

(** The default limit of the interpreter on the number of digits of a
    conversion between [str] and [int] ([sys.get_int_max_str_digits()]). *)
Definition max_str_digits : N := 4300.

(** [int(s)] on the text of a [\d+] group: the base ten value of the digits.
    Empty text or a character that is no digit is a [ValueError] (Python
    accepts some more forms, signs and blanks among them; none can come out of
    a [\d+] group), and so is a text of more than [max_str_digits] digits,
    leading zeros counted.  Below the limit integers are unbounded. *)
Fixpoint int_digits (acc : N) (s : str) : outcome N :=
  match s with
  | [] => Ok acc
  | c :: s' =>
      match digit_value c with
      | Some v => int_digits (10 * acc + v) s'
      | None => Raise ValueError
      end
  end.

Definition int (s : str) : outcome N :=
  match s with
  | [] => Raise ValueError
  | _ =>
      if max_str_digits <? N.of_nat (length s) then Raise ValueError
      else int_digits 0 s
  end.

(** [str(n)], also what an f-string writes for an integer.  The limit of
    [max_str_digits] holds for this direction too; the integers [summarize]
    writes are counts and frames that [int] returned, which stay below it. *)
Fixpoint text_of_uint (d : uint) : str :=
  match d with
  | Nil => []
  | D0 d' => 48 :: text_of_uint d'
  | D1 d' => 49 :: text_of_uint d'
  | D2 d' => 50 :: text_of_uint d'
  | D3 d' => 51 :: text_of_uint d'
  | D4 d' => 52 :: text_of_uint d'
  | D5 d' => 53 :: text_of_uint d'
  | D6 d' => 54 :: text_of_uint d'
  | D7 d' => 55 :: text_of_uint d'
  | D8 d' => 56 :: text_of_uint d'
  | D9 d' => 57 :: text_of_uint d'
  end.

Definition str_of_int (n : N) : str := text_of_uint (N.to_uint n).

(** ** The line pattern *)

(** [LINE_RE], written here with blanks between its parts:
<<
      ^ \[ (?P<ts> [^\]]+ ) \]
      \s+ \[mono_ms= (?P<mono> \d+ ) \]
      \s+ \[frame= (?P<frame> \d+ ) \]
      \s+ \[tid= (?P<tid> \d+ ) \]
      \s+ (?P<msg> .* ) $
>>
    Every greedy run of the pattern is followed by something its class
    excludes (a bracket after [[^\]]+], [\d+] and the first three [\s+]), or
    by the final group and [$], whose success does not depend on where the
    last [\s+] stops.  So the backtracking search finds a match exactly when
    the left to right reading below does, with the same groups
    ([LINE_RE_match_grammar] further down). *)

Record groups : Set := {
  group_ts : str;
  group_mono : str;
  group_frame : str;
  group_tid : str;
  group_msg : str
}.

(** A literal: the rest of the text after it. *)
Fixpoint lit (p s : str) : option str :=
  match p, s with
  | [], _ => Some s
  | _ :: _, [] => None
  | x :: p', y :: s' => if char_eqb x y then lit p' s' else None
  end.

(** The longest run of characters of a class, and the rest. *)
Fixpoint span (f : char -> bool) (s : str) : str * str :=
  match s with
  | [] => ([], [])
  | c :: s' =>
      if f c then let (run, rest) := span f s' in (c :: run, rest)
      else ([], s)
  end.

(** A class under [+]: the run is not empty. *)
Definition many1 (f : char -> bool) (s : str) : option (str * str) :=
  match span f s with
  | ([], _) => None
  | r => Some r
  end.

Definition not_close (c : char) : bool := negb (c =? 93).
Definition not_newline (c : char) : bool := negb (c =? LF).

(** [$]: the end of the text, or just before a line feed that ends it. *)
Definition at_end (s : str) : bool :=
  match s with
  | [] => true
  | [c] => c =? LF
  | _ => false
  end.

Definition obind {A B : Type} (m : option A) (k : A -> option B) : option B :=
  match m with
  | Some a => k a
  | None => None
  end.

Notation "x <-? m ;; k" := (obind m (fun x => k))
  (at level 61, m at next level, right associativity).

(** [\s+\[label(\d+)\]]: the digits of the group and the rest of the text. *)
Definition numeric_group (label : string) (s : str) : option (str * str) :=
  r <-? many1 is_space s ;;
  s1 <-? lit (codes label) (snd r) ;;
  d <-? many1 is_digit s1 ;;
  s2 <-? lit (codes "]") (snd d) ;;
  Some (fst d, s2).

(** [LINE_RE.match(line)] *)
Definition LINE_RE_match (line : str) : option groups :=
  s0 <-? lit (codes "[") line ;;
  t <-? many1 not_close s0 ;;
  s1 <-? lit (codes "]") (snd t) ;;
  m <-? numeric_group "[mono_ms=" s1 ;;
  f <-? numeric_group "[frame=" (snd m) ;;
  d <-? numeric_group "[tid=" (snd f) ;;
  w <-? many1 is_space (snd d) ;;
  let (text, rest) := span not_newline (snd w) in
  if at_end rest
  then Some {| group_ts := fst t; group_mono := fst m; group_frame := fst f;
               group_tid := fst d; group_msg := text |}
  else None.

(** ** Events *)

Record event : Set := {
  file : str;
  ts : str;
  mono_ms : N;
  frame : N;
  tid : N;
  msg : str
}.

(** The body of the loop of [parse_log_file]: one raw line of the file [name]
    gives one event, or none when the line does not match. *)
Definition parse_line (name raw : str) : outcome (option event) :=
  let line := rstrip_newline raw in
  match LINE_RE_match line with
  | None => Ok None
  | Some m =>
      mono <- int (group_mono m) ;;
      fr <- int (group_frame m) ;;
      td <- int (group_tid m) ;;
      Ok (Some {| file := name; ts := group_ts m; mono_ms := mono;
                  frame := fr; tid := td; msg := group_msg m |})
  end.

(** ** The file system, as far as the tool looks at it *)

(** What a path leads to: a file, given by the raw lines that iterating over
    its text stream yields (each still with its line feed, decoding already
    done), or a directory with its entries, by name, or something that is no
    directory and that [open] refuses: a link that leads nowhere or an entry
    that is gone by the time it is opened, a file the user may not read, or
    whatever else makes the operating system refuse. *)
Inductive refusal : Set := NotFound | NoPermission | OtherRefusal.

Definition refusal_error (why : refusal) : exn :=
  match why with
  | NotFound => FileNotFoundError
  | NoPermission => PermissionError
  | OtherRefusal => OSError
  end.

#[local] Unset Elimination Schemes.
Inductive node : Set :=
| File (raws : list str)
| Dir (entries : list (str * node))
| Unopenable (why : refusal).
#[local] Set Elimination Schemes.

(** A path inside the trace directory: the entry's name and what is there. *)
Definition path : Set := (str * node)%type.

Definition path_name (p : path) : str := fst p.

(** The loop of [parse_log_file] over the raw lines, [events] being the list
    it appends to. *)
Fixpoint read_events (name : str) (raws : list str) (events : list event)
  : outcome (list event) :=
  match raws with
  | [] => Ok events
  | raw :: raws' =>
      r <- parse_line name raw ;;
      read_events name raws'
        (match r with Some e => events ++ [e] | None => events end)
  end.

(** [parse_log_file(path)]: opening a directory raises, and so does opening
    what [open] refuses. *)
Definition parse_log_file (p : path) : outcome (list event) :=
  match snd p with
  | Dir _ => Raise IsADirectoryError
  | Unopenable why => Raise (refusal_error why)
  | File raws => read_events (path_name p) raws []
  end.

(** ** Sorting *)

(** [sorted] and [list.sort] are stable, and a stable sort has one possible
    result once the order is fixed: the one insertion computes.  [ltb y x]
    is the [<] of the keys. *)
Section StableSort.
Variable A : Type.
Variable ltb : A -> A -> bool.

Fixpoint insert_sorted (x : A) (l : list A) : list A :=
  match l with
  | [] => [x]
  | y :: l' => if ltb y x then y :: insert_sorted x l' else x :: l
  end.

Fixpoint stable_sort (l : list A) : list A :=
  match l with
  | [] => []
  | x :: l' => insert_sorted x (stable_sort l')
  end.
End StableSort.

(** The key of [events.sort]: the tuple [(mono_ms, frame, file)], compared
    component by component. *)
Definition key_ltb (a b : event) : bool :=
  (mono_ms a <? mono_ms b) ||
  ((mono_ms a =? mono_ms b) &&
   ((frame a <? frame b) ||
    ((frame a =? frame b) && str_ltb (file a) (file b)))).

Definition sort_events (events : list event) : list event :=
  stable_sort key_ltb events.

(** [sorted(trace_dir.glob("*.log"))]: paths of one directory compare by
    their names. *)
Definition path_ltb (p q : path) : bool := str_ltb (path_name p) (path_name q).

Definition glob_log (entries : list path) : list path :=
  filter (fun p => ends_with (codes ".log") (path_name p)) entries.

Definition sorted_paths (paths : list path) : list path :=
  stable_sort path_ltb paths.

(** ** [collections.Counter] *)

(** A counter keeps its keys in the order of their first insertion. *)
Section Counter.
Variable K : Type.
Variable eqb : K -> K -> bool.

Definition counter : Type := list (K * N).

(** [c[k] += 1] *)
Fixpoint incr (k : K) (c : counter) : counter :=
  match c with
  | [] => [(k, 1)]
  | (k', n) :: c' =>
      if eqb k' k then (k', n + 1) :: c' else (k', n) :: incr k c'
  end.

(** [c.most_common()]: the items sorted by count, largest first, items of
    equal count in the order of the counter ([sorted] with [reverse=True] by
    the count: [y] goes before [x] when its count is the larger). *)
Definition count_ltb (y x : K * N) : bool := snd x <? snd y.

Definition most_common (c : counter) : list (K * N) :=
  stable_sort count_ltb c.

(** [c.most_common(n)] *)
Definition most_common_n (n : nat) (c : counter) : list (K * N) :=
  firstn n (most_common c).

(** The counter after counting the keys [ks] one by one. *)
Definition count_keys (ks : list K) : counter :=
  fold_left (fun c k => incr k c) ks [].
End Counter.

(** ** The report *)

Definition is_anomaly (m : str) : bool :=
  contains (codes "anomaly_detector") m ||
  contains (codes "stall_warning") m ||
  contains (codes "memory_growth_warning") m.

(** The three accumulators of the first loop of [summarize]. *)
Record tally : Type := {
  by_file : counter str;
  by_frame : counter N;
  anomalies : list event
}.

Definition tally_step (t : tally) (e : event) : tally :=
  {| by_file := incr str_eqb (file e) (by_file t);
     by_frame := incr N.eqb (frame e) (by_frame t);
     anomalies := if is_anomaly (msg e) then anomalies t ++ [e]
                  else anomalies t |}.

Definition tally_events (events : list event) : tally :=
  fold_left tally_step events
    {| by_file := []; by_frame := []; anomalies := [] |}.

Definition file_row (r : str * N) : str :=
  codes "  " ++ fst r ++ codes ": " ++ str_of_int (snd r).

Definition frame_row (r : N * N) : str :=
  codes "  frame=" ++ str_of_int (fst r) ++ codes " events=" ++ str_of_int (snd r).

Definition anomaly_row (e : event) : str :=
  codes "  ts=" ++ ts e ++ codes " frame=" ++ str_of_int (frame e) ++
  codes " file=" ++ file e ++ codes " msg=" ++ msg e.

(** [l[-n:]] *)
Definition last_n {A : Type} (n : nat) (l : list A) : list A :=
  skipn (length l - n) l.

(** The lines under [anomaly_events:]. *)
Definition anomaly_lines (found : list event) : list str :=
  match found with
  | [] => [codes "  (none)"]
  | _ => List.map anomaly_row (last_n 50 found)
  end.

(** The four parts of the report, each as [summarize] computes it. *)
Definition total_events (events : list event) : N :=
  N.of_nat (length events).

Definition events_by_component_log (events : list event) : list (str * N) :=
  most_common (by_file (tally_events events)).

Definition top_frames_by_event_count (events : list event) : list (N * N) :=
  most_common_n 10 (by_frame (tally_events events)).

Definition anomaly_events (events : list event) : list str :=
  anomaly_lines (anomalies (tally_events events)).

(** [summarize(events)]: the lines it prints. *)
Definition summarize (events : list event) : list str :=
  [codes "total_events=" ++ str_of_int (total_events events);
   codes "events_by_component_log:"] ++
  List.map file_row (events_by_component_log events) ++
  [codes "top_frames_by_event_count:"] ++
  List.map frame_row (top_frames_by_event_count events) ++
  [codes "anomaly_events:"] ++
  anomaly_events events.

(** ** The program *)

(** What a run that ends without an uncaught exception leaves behind. *)
Record run : Set := {
  exit_code : N;
  stdout : list str;
  stderr : list str
}.

(** The loop of [main] over the log files: [events.extend(parse_log_file(p))]. *)
Fixpoint ingest (log_files : list path) (events : list event)
  : outcome (list event) :=
  match log_files with
  | [] => Ok events
  | p :: rest =>
      evs <- parse_log_file p ;;
      ingest rest (events ++ evs)
  end.

(** The merged sequence: what [events] holds after [events.sort]. *)
Definition merged_events (log_files : list path) : outcome (list event) :=
  events <- ingest log_files [] ;;
  Ok (sort_events events).

(** [main()], from [trace_dir] on: [trace_dir] is the text of the path and
    [target] what it leads to, [None] when nothing is there. *)
Definition main (trace_dir : str) (target : option node) : outcome run :=
  match target with
  | Some (Dir entries) =>
      let log_files := sorted_paths (glob_log entries) in
      match log_files with
      | [] =>
          Ok {| exit_code := 2; stdout := [];
                stderr := [codes "error: no .log files found in " ++ trace_dir] |}
      | _ :: _ =>
          events <- merged_events log_files ;;
          Ok {| exit_code := 0; stdout := summarize events; stderr := [] |}
      end
  | _ =>
      Ok {| exit_code := 2; stdout := [];
            stderr := [codes "error: trace_dir not found: " ++ trace_dir] |}
  end.

(** ** What the specification talks about *)

(** Plain text order on [str], as a relation. *)
Inductive str_le : str -> str -> Prop :=
| str_le_nil : forall b, str_le [] b
| str_le_lt : forall x a y b, x < y -> str_le (x :: a) (y :: b)
| str_le_eq : forall x a b, str_le a b -> str_le (x :: a) (x :: b).

(** [(a.mono_ms, a.frame, a.source_name) <= (b.mono_ms, b.frame, b.source_name)] *)
Definition key_le (a b : event) : Prop :=
  mono_ms a < mono_ms b \/
  (mono_ms a = mono_ms b /\
   (frame a < frame b \/
    (frame a = frame b /\ str_le (file a) (file b)))).

(** The adjacent pairs of a sequence are in the relation [R]. *)
Definition adjacent_pairs {A : Type} (R : A -> A -> Prop) (l : list A) : Prop :=
  forall l1 a b l2, l = l1 ++ a :: b :: l2 -> R a b.

(** [p] occurs in [s] as a plain substring. *)
Definition substring (p s : str) : Prop :=
  exists pre post, s = pre ++ p ++ post.

Definition keywords : list str :=
  [codes "anomaly_detector"; codes "stall_warning"; codes "memory_growth_warning"].

Definition anomalous (e : event) : Prop :=
  exists kw, In kw keywords /\ substring kw (msg e).

(** [s] holds exactly the elements of [l] that satisfy [P], in the order of [l]. *)
Inductive selection {A : Type} (P : A -> Prop) : list A -> list A -> Prop :=
| selection_nil : selection P [] []
| selection_keep : forall x l s, P x -> selection P l s -> selection P (x :: l) (x :: s)
| selection_skip : forall x l s, ~ P x -> selection P l s -> selection P (x :: l) s.

(** [k] is met for the first time at position [p] of [keys]. *)
Definition first_at {K : Type} (k : K) (keys : list K) (p : nat) : Prop :=
  nth_error keys p = Some k /\
  forall q, (q < p)%nat -> nth_error keys q <> Some k.

(** [k1] is first met before [k2] is. *)
Definition first_seen_before {K : Type} (keys : list K) (k1 k2 : K) : Prop :=
  exists p q, first_at k1 keys p /\ first_at k2 keys q /\ (p < q)%nat.

(** Rows of [(key, count)] in descending order of count. *)
Definition descending {K : Type} (rows : list (K * N)) : Prop :=
  adjacent_pairs (fun r1 r2 => snd r2 <= snd r1) rows.

(** Rows of equal count stand in the order in which their keys were first met
    in [keys]. *)
Definition ties_by_first_seen {K : Type} (keys : list K) (rows : list (K * N)) : Prop :=
  forall l1 r1 l2 r2 l3,
    rows = l1 ++ r1 :: l2 ++ r2 :: l3 ->
    snd r1 = snd r2 ->
    first_seen_before keys (fst r1) (fst r2).

Definition sum_counts {K : Type} (rows : list (K * N)) : N :=
  fold_right (fun r acc => snd r + acc) 0 rows.

(** A raw line matches the line grammar. *)
Definition matches_grammar (raw : str) : bool :=
  match LINE_RE_match (rstrip_newline raw) with
  | Some _ => true
  | None => false
  end.

(** The number of lines of the log files that match the grammar. *)
Definition matching_lines (p : path) : nat :=
  match snd p with
  | File raws => length (filter matches_grammar raws)
  | Dir _ | Unopenable _ => 0%nat
  end.

Definition matching_line_count (log_files : list path) : nat :=
  fold_right (fun p acc => (matching_lines p + acc)%nat) 0%nat log_files.

(** The texts the parts of the pattern accept: a run of whitespace, a run
    of digits, a timestamp; none is empty. *)
Definition blank (w : str) : Prop := w <> [] /\ forallb is_space w = true.
Definition digits (m : str) : Prop := m <> [] /\ forallb is_digit m = true.
Definition timestamp (t : str) : Prop := t <> [] /\ forallb not_close t = true.

(** A line written from its parts: the four bracket groups, the blanks [w1],
    [w2], [w3] between them, and [tail], all that follows the last bracket. *)
Definition bracket_line (t w1 m w2 f w3 d tail : str) : str :=
  codes "[" ++ t ++ codes "]" ++ w1 ++
  codes "[mono_ms=" ++ m ++ codes "]" ++ w2 ++
  codes "[frame=" ++ f ++ codes "]" ++ w3 ++
  codes "[tid=" ++ d ++ codes "]" ++ tail.

(** What may follow the last bracket of a matching line: blanks, a message
    without line feed, and the end of the text or one last line feed. *)
Definition message_tail (tail : str) : Prop :=
  exists w text rest,
    tail = w ++ text ++ rest /\
    blank w /\
    forallb not_newline text = true /\
    (rest = [] \/ rest = [LF]).

(** The four structured fields of an event written back in the bracketed
    form, one blank between the groups. *)
Definition bracketed_prefix (e : event) : str :=
  bracket_line (ts e) (codes " ") (str_of_int (mono_ms e)) (codes " ")
    (str_of_int (frame e)) (codes " ") (str_of_int (tid e)) [].

(** ASCII decimal text without leading zeros. *)
Definition ascii_digit (c : char) : bool := (48 <=? c) && (c <=? 57).


(** ** Notions used in the proofs *)

Section StableOrder.
Variable A : Type.
Variable ltb : A -> A -> bool.

(** [R] holds between elements in their order before the sort. *)
Variable R : A -> A -> Prop.

(** After the sort [x] stands before [y] only if [y] is not below [x], and
    when neither is below the other they kept their order. *)
Definition sorted_stably (x y : A) : Prop :=
  ltb y x = false /\ (ltb x y = true \/ R x y).
End StableOrder.

(** A greedy run stops at [rest]: at the end, or at a character outside the
    class. *)
Definition stops (f : char -> bool) (rest : str) : Prop :=
  match rest with
  | [] => True
  | c :: _ => f c = false
  end.

(** [k] ASCII zeros. *)
Definition zeros (k : nat) : str := repeat 48 k.

(** The decimal number an ASCII text spells. *)
Definition digit_cons (v : N) (d : uint) : uint :=
  match v with
  | 0 => D0 d | 1 => D1 d | 2 => D2 d | 3 => D3 d | 4 => D4 d
  | 5 => D5 d | 6 => D6 d | 7 => D7 d | 8 => D8 d | _ => D9 d
  end.

Fixpoint uint_of_text (s : str) : uint :=
  match s with
  | [] => Nil
  | c :: s' => digit_cons (c - 48) (uint_of_text s')
  end.

(** The bracket groups up to the digits of [tid]. *)
Definition bracket_head (t w1 m w2 f w3 d : str) : str :=
  codes "[" ++ t ++ codes "]" ++ w1 ++
  codes "[mono_ms=" ++ m ++ codes "]" ++ w2 ++
  codes "[frame=" ++ f ++ codes "]" ++ w3 ++
  codes "[tid=" ++ d.

(** The message group found in what follows the last bracket, if the line
    matches there. *)
Definition message_of (tail : str) : option str :=
  w <-? many1 is_space tail ;;
  let (text, rest) := span not_newline (snd w) in
  if at_end rest then Some text else None.

(** The text from some point of a message on: no line feed but possibly a
    last one. *)
Definition message_rest (z : str) : Prop :=
  exists text rest,
    z = text ++ rest /\ forallb not_newline text = true /\ at_end rest = true.

(** The events of one raw line: one when it parses, none otherwise. *)
Definition line_events (name raw : str) : list event :=
  match parse_line name raw with
  | Ok (Some e) => [e]
  | _ => []
  end.

(** The events that reading one log file gives. *)
Definition file_events (p : path) : list event :=
  match snd p with
  | File raws => flat_map (line_events (path_name p)) raws
  | Dir _ | Unopenable _ => []
  end.

(** An entry that [glob("*.log")] lists. *)
Definition log_entry (p : path) : Prop :=
  ends_with (codes ".log") (path_name p) = true.

(** A digit text that [int] accepts for its length, and one it refuses. *)
Definition within_limit (m : str) : Prop :=
  N.of_nat (length m) <= max_str_digits.

Definition exceeds (m : str) : bool :=
  max_str_digits <? N.of_nat (length m).

(** One of the numeric groups of a match has more digits than [int] takes. *)
Definition field_overlong (g : groups) : bool :=
  exceeds (group_mono g) || exceeds (group_frame g) || exceeds (group_tid g).

(** A raw line that matches the grammar with such a numeric field. *)
Definition overlong (raw : str) : bool :=
  match LINE_RE_match (rstrip_newline raw) with
  | Some g => field_overlong g
  | None => false
  end.

(** An entry that can be read to its end: a file that opens and none of
    whose lines is overlong. *)
Definition ingestible (n : node) : Prop :=
  match n with
  | File raws => Forall (fun raw => overlong raw = false) raws
  | Dir _ | Unopenable _ => False
  end.

(** Reading the entry raises [x], and why. *)
Definition fails_with (n : node) (x : exn) : Prop :=
  match n with
  | File raws => x = ValueError /\ Exists (fun raw => overlong raw = true) raws
  | Dir _ => x = IsADirectoryError
  | Unopenable why => x = refusal_error why
  end.

(** Two records have the same sort key. *)
Definition key_eqb (a b : event) : bool :=
  (mono_ms a =? mono_ms b) && (frame a =? frame b) && str_eqb (file a) (file b).

(** A line that matches the grammar, its field [mono_ms] one digit longer
    than [int] takes. *)
Definition overlong_line : str :=
  codes "[t0] [mono_ms=" ++ repeat 49 (N.to_nat 4301) ++
  codes "] [frame=1] [tid=5] hello".

(** The first character of a text, if any, is no whitespace. *)
Definition no_leading_blank (s : str) : Prop :=
  match s with
  | [] => True
  | c :: _ => is_space c = false
  end.

(** How many times [k] occurs in [ks]. *)
Definition times {K : Type} (eqb : K -> K -> bool) (k : K) (ks : list K) : N :=
  N.of_nat (length (filter (fun x => eqb x k) ks)).

(** The count a counter holds for [k], 0 when [k] is not a key of it. *)
Fixpoint count_of {K : Type} (eqb : K -> K -> bool) (k : K) (c : counter K) : N :=
  match c with
  | [] => 0
  | (k', n) :: c' => if eqb k' k then n else count_of eqb k c'
  end.

(** The report of a run in which no line matched. *)
Definition empty_report : list str :=
  [ codes "total_events=0";
    codes "events_by_component_log:";
    codes "top_frames_by_event_count:";
    codes "anomaly_events:";
    codes "  (none)" ].

(** ** Inputs of the scenarios *)

(** Scenario 1 of the specification. *)
Definition scenario1 : node :=
  Dir [ (codes "engine.log",
         File [ codes "[t0] [mono_ms=100] [frame=1] [tid=5] hello" ++ [LF];
                codes "[t0] [mono_ms=50] [frame=2] [tid=5] anomaly_detector fired" ++ [LF] ]) ].

(** Scenario 6 of the specification: equal [mono_ms] and [frame], two files. *)
Definition scenario6 : list path :=
  [ (codes "b.log", File [codes "[t1] [mono_ms=7] [frame=3] [tid=1] from b" ++ [LF]]);
    (codes "a.log", File [codes "[t2] [mono_ms=7] [frame=3] [tid=2] from a" ++ [LF]]) ].

(** The merged sequence of scenario 6. *)
Definition scenario6_events : list event :=
  [ {| file := codes "a.log"; ts := codes "t2"; mono_ms := 7; frame := 3;
       tid := 2; msg := codes "from a" |};
    {| file := codes "b.log"; ts := codes "t1"; mono_ms := 7; frame := 3;
       tid := 1; msg := codes "from b" |} ].

(** A directory that holds a subdirectory named like a log file, next to a
    log file. *)
Definition with_subdirectory : node :=
  Dir [ (codes "crash.log", Dir [(codes "core.log", File [])]);
        (codes "engine.log",
         File [codes "[t0] [mono_ms=100] [frame=1] [tid=5] hello" ++ [LF]]) ].

Definition without_subdirectory : node :=
  Dir [ (codes "engine.log",
         File [codes "[t0] [mono_ms=100] [frame=1] [tid=5] hello" ++ [LF]]) ].

(** ** Stable sorting *)

Section StableSortMembers.
Variable A : Type.
Variable ltb : A -> A -> bool.

Lemma insert_sorted_In x z l :
  In z (insert_sorted ltb x l) <-> z = x \/ In z l.
Proof.
  induction l as [|y l IH]; simpl.
  - intuition.
  - destruct (ltb y x); simpl; rewrite ?IH; intuition.
Qed.

Lemma stable_sort_In z l : In z (stable_sort ltb l) <-> In z l.
Proof.
  induction l as [|x l IH]; simpl; [tauto|].
  rewrite insert_sorted_In, IH. intuition.
Qed.

Lemma insert_sorted_perm x l : Permutation (x :: l) (insert_sorted ltb x l).
Proof.
  induction l as [|y l IH]; simpl; [reflexivity|].
  destruct (ltb y x); [|reflexivity].
  rewrite perm_swap. now apply perm_skip.
Qed.

Lemma stable_sort_perm l : Permutation l (stable_sort ltb l).
Proof.
  induction l as [|x l IH]; simpl; [constructor|].
  rewrite <- insert_sorted_perm. now apply perm_skip.
Qed.

End StableSortMembers.

Section StableSortFacts.
Variable A : Type.
Variable ltb : A -> A -> bool.
Hypothesis ltb_asym : forall x y, ltb x y = true -> ltb y x = false.
Hypothesis ltb_le_trans :
  forall x y z, ltb y x = false -> ltb z y = false -> ltb z x = false.

Variable R : A -> A -> Prop.

Lemma insert_sorted_stably x l :
  ForallOrdPairs (sorted_stably ltb R) l ->
  (forall z, In z l -> R x z) ->
  ForallOrdPairs (sorted_stably ltb R) (insert_sorted ltb x l).
Proof.
  induction l as [|y l IH]; intros Hl Hx; simpl.
  - constructor; [constructor | constructor].
  - inversion Hl as [|? ? Hy Hl']; subst.
    destruct (ltb y x) eqn:E.
    + constructor.
      * apply Forall_forall. intros z Hz.
        apply insert_sorted_In in Hz. destruct Hz as [->|Hz].
        -- split; [now apply ltb_asym | now left].
        -- rewrite Forall_forall in Hy. now apply Hy.
      * apply IH; [assumption|]. intros z Hz. apply Hx. now right.
    + constructor; [|assumption].
      constructor.
      * split; [assumption | right; apply Hx; now left].
      * apply Forall_forall. intros z Hz. split.
        -- rewrite Forall_forall in Hy. destruct (Hy z Hz) as [Hyz _].
           now apply ltb_le_trans with y.
        -- right. apply Hx. now right.
Qed.

Lemma stable_sort_stably l :
  ForallOrdPairs R l -> ForallOrdPairs (sorted_stably ltb R) (stable_sort ltb l).
Proof.
  induction 1 as [|x l Hx Hl IH]; simpl; [constructor|].
  apply insert_sorted_stably; [assumption|].
  intros z Hz. apply (proj1 (stable_sort_In ltb z l)) in Hz.
  rewrite Forall_forall in Hx. now apply Hx.
Qed.
End StableSortFacts.

Section OrdPairs.
Variable A : Type.
Variable R : A -> A -> Prop.

Lemma ordpairs_all (l : list A) :
  (forall x y, R x y) -> ForallOrdPairs R l.
Proof.
  intros H. induction l; constructor; [|assumption].
  apply Forall_forall. intros; apply H.
Qed.

Lemma ordpairs_split l1 a l2 b l3 :
  ForallOrdPairs R (l1 ++ a :: l2 ++ b :: l3) -> R a b.
Proof.
  induction l1 as [|x l1 IH]; simpl; intros H; inversion H; subst.
  - match goal with F : Forall _ _ |- _ => rewrite Forall_forall in F; apply F end.
    apply in_or_app. right. now left.
  - now apply IH.
Qed.

Lemma ordpairs_adjacent l : ForallOrdPairs R l -> adjacent_pairs R l.
Proof.
  intros H l1 a b l2 ->. apply ordpairs_split with (l1 := l1) (l2 := []) (l3 := l2).
  exact H.
Qed.

Lemma ordpairs_firstn n l :
  ForallOrdPairs R l -> ForallOrdPairs R (firstn n l).
Proof.
  revert l. induction n as [|n IH]; intros l H; simpl; [constructor|].
  destruct l as [|x l]; [constructor|].
  inversion H; subst. constructor; [|now apply IH].
  apply Forall_forall. intros z Hz.
  match goal with F : Forall _ _ |- _ => rewrite Forall_forall in F; apply F end.
  revert Hz. clear. revert l. induction n; intros [|y l]; simpl; try tauto.
  intros [->|Hz]; [now left | right; eauto].
Qed.

Lemma ordpairs_weaken (Q : A -> A -> Prop) l :
  (forall x y, R x y -> Q x y) -> ForallOrdPairs R l -> ForallOrdPairs Q l.
Proof.
  intros H. induction 1; constructor; [|assumption].
  eapply Forall_impl; [|eassumption]. auto.
Qed.
End OrdPairs.

(** ** The order of the sort keys *)

Ltac bool_to_prop :=
  repeat rewrite ?orb_true_iff, ?orb_false_iff, ?andb_true_iff, ?andb_false_iff,
    ?negb_true_iff, ?negb_false_iff,
    ?N.ltb_lt, ?N.ltb_ge, ?N.leb_le, ?N.leb_gt, ?N.eqb_eq, ?N.eqb_neq in *.

Lemma str_ltb_asym a b : str_ltb a b = true -> str_ltb b a = false.
Proof.
  revert b. induction a as [|x a IH]; intros [|y b]; simpl; try congruence.
  intros H. bool_to_prop. destruct H as [H|[H1 H2]].
  - split; [lia | left; lia].
  - subst. split; [lia | right; now apply IH].
Qed.

Lemma str_ltb_le_trans a b c :
  str_ltb b a = false -> str_ltb c b = false -> str_ltb c a = false.
Proof.
  revert b c. induction a as [|x a IH]; intros [|y b] [|z c]; simpl;
    try congruence.
  intros H1 H2. bool_to_prop.
  destruct H1 as [H1 H1'], H2 as [H2 H2'].
  split; [lia|].
  destruct (N.eq_dec z x) as [->|Hzx]; [|now left].
  assert (y = x) by lia. subst y.
  right. apply IH with b; [destruct H1' | destruct H2']; congruence.
Qed.

Lemma str_ltb_le a b : str_ltb b a = false -> str_le a b.
Proof.
  revert b. induction a as [|x a IH]; intros [|y b]; simpl;
    try congruence; try (intros _; apply str_le_nil).
  intros H. bool_to_prop. destruct H as [H H'].
  destruct (N.eq_dec y x) as [->|Hyx].
  - apply str_le_eq, IH. destruct H'; congruence.
  - apply str_le_lt. lia.
Qed.

Lemma str_eqb_eq a b : str_eqb a b = true <-> a = b.
Proof.
  revert b. induction a as [|x a IH]; intros [|y b]; simpl;
    try (split; congruence).
  unfold char_eqb. rewrite andb_true_iff, N.eqb_eq, IH.
  split; [intros [-> ->]; reflexivity | intros E; inversion E; auto].
Qed.

Lemma key_ltb_asym a b : key_ltb a b = true -> key_ltb b a = false.
Proof.
  unfold key_ltb. intros H. bool_to_prop.
  destruct H as [H|[H1 [H2|[H2 H3]]]].
  - split; [lia | left; lia].
  - split; [lia | right; split; [lia | left; lia]].
  - split; [lia | right; split; [lia | right; now apply str_ltb_asym]].
Qed.

Lemma key_ltb_le_trans a b c :
  key_ltb b a = false -> key_ltb c b = false -> key_ltb c a = false.
Proof.
  unfold key_ltb. intros H1 H2. bool_to_prop.
  destruct H1 as [H1 H1'], H2 as [H2 H2'].
  split; [lia|].
  destruct (N.eq_dec (mono_ms c) (mono_ms a)) as [E|]; [right | now left].
  assert (Eb : mono_ms b = mono_ms a) by lia.
  destruct H1' as [|[H1f H1']]; [congruence|].
  destruct H2' as [|[H2f H2']]; [congruence|].
  split; [lia|].
  destruct (N.eq_dec (frame c) (frame a)) as [E'|]; [right | now left].
  assert (Eb' : frame b = frame a) by lia.
  destruct H1' as [|H1']; [congruence|].
  destruct H2' as [|H2']; [congruence|].
  now apply str_ltb_le_trans with (file b).
Qed.

Lemma key_ltb_le a b : key_ltb b a = false -> key_le a b.
Proof.
  unfold key_ltb, key_le. intros H. bool_to_prop. destruct H as [H H'].
  destruct (N.eq_dec (mono_ms b) (mono_ms a)) as [E|]; [right | left; lia].
  split; [congruence|].
  destruct H' as [|[Hf H']]; [congruence|].
  destruct (N.eq_dec (frame b) (frame a)) as [E'|]; [right | left; lia].
  split; [congruence|].
  destruct H' as [|H']; [congruence|]. now apply str_ltb_le.
Qed.

Lemma sort_events_sorted events : adjacent_pairs key_le (sort_events events).
Proof.
  apply ordpairs_adjacent.
  apply ordpairs_weaken with (R := sorted_stably key_ltb (fun _ _ => True)).
  - intros x y [H _]. now apply key_ltb_le.
  - apply stable_sort_stably.
    + exact key_ltb_asym.
    + exact key_ltb_le_trans.
    + now apply ordpairs_all.
Qed.

Lemma sort_events_perm events : Permutation events (sort_events events).
Proof. apply stable_sort_perm. Qed.

(** ** The pieces of the matcher *)

Arguments is_space c : simpl never.
Arguments digit_value c : simpl never.
Arguments is_digit c : simpl never.
Arguments not_close c : simpl never.
Arguments not_newline c : simpl never.

Lemma lit_app p r : lit p (p ++ r) = Some r.
Proof.
  induction p as [|x p IH]; simpl; [reflexivity|].
  unfold char_eqb. now rewrite N.eqb_refl.
Qed.

Lemma lit_sound p s r : lit p s = Some r -> s = p ++ r.
Proof.
  revert s. induction p as [|x p IH]; intros s; simpl.
  - congruence.
  - destruct s as [|y s]; [discriminate|].
    unfold char_eqb. destruct (N.eqb_spec x y); [|discriminate].
    intros H. apply IH in H. now subst.
Qed.

Lemma span_app f run rest :
  forallb f run = true -> stops f rest -> span f (run ++ rest) = (run, rest).
Proof.
  intros Hrun Hrest. induction run as [|c run IH]; simpl in *.
  - destruct rest as [|c rest]; [reflexivity|].
    simpl in *. now rewrite Hrest.
  - apply andb_true_iff in Hrun. destruct Hrun as [Hc Hrun].
    now rewrite Hc, IH.
Qed.

Lemma span_sound f s run rest :
  span f s = (run, rest) ->
  s = run ++ rest /\ forallb f run = true /\ stops f rest.
Proof.
  revert run rest. induction s as [|c s IH]; simpl; intros run rest H.
  - inversion H. simpl. auto.
  - destruct (f c) eqn:Hc.
    + destruct (span f s) as [run' rest'] eqn:E. inversion H; subst.
      destruct (IH run' rest eq_refl) as (-> & Hrun & Hrest).
      simpl. rewrite Hc. auto.
    + inversion H; subst. simpl. auto.
Qed.

Lemma many1_app f run rest :
  run <> [] -> forallb f run = true -> stops f rest ->
  many1 f (run ++ rest) = Some (run, rest).
Proof.
  intros Hne Hrun Hrest. unfold many1. rewrite span_app by assumption.
  destruct run; [now elim Hne | reflexivity].
Qed.

Lemma many1_sound f s run rest :
  many1 f s = Some (run, rest) ->
  run <> [] /\ s = run ++ rest /\ forallb f run = true /\ stops f rest.
Proof.
  unfold many1. destruct (span f s) as [run' rest'] eqn:E.
  intros H. apply span_sound in E.
  destruct run' as [|c run']; [discriminate|].
  inversion H; subst. split; [discriminate | assumption].
Qed.

Lemma numeric_group_app label body w m r :
  codes label = 91 :: body ->
  blank w -> digits m ->
  numeric_group label (w ++ codes label ++ m ++ codes "]" ++ r) = Some (m, r).
Proof.
  intros Hlabel [Hw Hw'] [Hm Hm']. unfold numeric_group.
  rewrite many1_app; [simpl | assumption | assumption | now rewrite Hlabel].
  rewrite lit_app. simpl.
  rewrite many1_app; [simpl | assumption | assumption | reflexivity].
  reflexivity.
Qed.

Lemma numeric_group_sound label s m r :
  numeric_group label s = Some (m, r) ->
  digits m /\ exists w, blank w /\ s = w ++ codes label ++ m ++ codes "]" ++ r.
Proof.
  unfold numeric_group.
  destruct (many1 is_space s) as [[w s1]|] eqn:Ew; [cbn [obind fst snd]|discriminate].
  destruct (lit (codes label) s1) as [s2|] eqn:El; [cbn [obind fst snd]|discriminate].
  destruct (many1 is_digit s2) as [[m' s3]|] eqn:Em; [cbn [obind fst snd]|discriminate].
  destruct (lit (codes "]") s3) as [s4|] eqn:Ec; [cbn [obind fst snd]|discriminate].
  intros H. inversion H; subst.
  apply many1_sound in Ew. destruct Ew as (Hw & -> & Hw' & _).
  apply lit_sound in El. subst s1.
  apply many1_sound in Em. destruct Em as (Hm & -> & Hm' & _).
  apply lit_sound in Ec. subst s3.
  split; [now split|]. exists w. split; [now split|]. reflexivity.
Qed.

(** The match of a line written from its parts depends only on what follows
    the last bracket. *)
Lemma LINE_RE_match_bracket_line t w1 m w2 f w3 d tail :
  timestamp t -> blank w1 -> digits m -> blank w2 -> digits f ->
  blank w3 -> digits d ->
  LINE_RE_match (bracket_line t w1 m w2 f w3 d tail) =
  (w <-? many1 is_space tail ;;
   let (text, rest) := span not_newline (snd w) in
   if at_end rest
   then Some {| group_ts := t; group_mono := m; group_frame := f;
                group_tid := d; group_msg := text |}
   else None).
Proof.
  intros [Ht Ht'] Hw1 Hm Hw2 Hf Hw3 Hd.
  unfold LINE_RE_match, bracket_line.
  rewrite lit_app. cbn [obind fst snd].
  rewrite many1_app; [cbn [obind fst snd] | assumption | assumption | reflexivity].
  rewrite lit_app. cbn [obind fst snd].
  rewrite (@numeric_group_app "[mono_ms=" (codes "mono_ms=")) by (reflexivity || assumption).
  cbn [obind fst snd].
  rewrite (@numeric_group_app "[frame=" (codes "frame=")) by (reflexivity || assumption).
  cbn [obind fst snd].
  rewrite (@numeric_group_app "[tid=" (codes "tid=")) by (reflexivity || assumption).
  cbn [obind fst snd].
  reflexivity.
Qed.

(** What a match says about the groups. *)
Lemma LINE_RE_match_groups line g :
  LINE_RE_match line = Some g ->
  timestamp (group_ts g) /\ digits (group_mono g) /\
  digits (group_frame g) /\ digits (group_tid g) /\
  forallb not_newline (group_msg g) = true /\
  exists w1 w2 w3 w4 rest,
    blank w1 /\ blank w2 /\ blank w3 /\ blank w4 /\ at_end rest = true /\
    line = bracket_line (group_ts g) w1 (group_mono g) w2 (group_frame g) w3
             (group_tid g) (w4 ++ group_msg g ++ rest).
Proof.
  unfold LINE_RE_match.
  destruct (lit (codes "[") line) as [s0|] eqn:E0; [cbn [obind fst snd]|discriminate].
  destruct (many1 not_close s0) as [[t s1]|] eqn:Et; [cbn [obind fst snd]|discriminate].
  destruct (lit (codes "]") s1) as [s2|] eqn:E1; [cbn [obind fst snd]|discriminate].
  destruct (numeric_group "[mono_ms=" s2) as [[m s3]|] eqn:Em; [cbn [obind fst snd]|discriminate].
  destruct (numeric_group "[frame=" s3) as [[f s4]|] eqn:Ef; [cbn [obind fst snd]|discriminate].
  destruct (numeric_group "[tid=" s4) as [[d s5]|] eqn:Ed; [cbn [obind fst snd]|discriminate].
  destruct (many1 is_space s5) as [[w4 s6]|] eqn:Ew; [cbn [obind fst snd]|discriminate].
  destruct (span not_newline s6) as [text rest] eqn:Es.
  destruct (at_end rest) eqn:Ee; [|discriminate].
  intros H. inversion H; subst g; simpl. clear H.
  apply lit_sound in E0. apply many1_sound in Et. apply lit_sound in E1.
  apply numeric_group_sound in Em, Ef, Ed.
  apply many1_sound in Ew. apply span_sound in Es.
  destruct Et as (Ht & -> & Ht' & _).
  destruct Em as (Hm & w1 & Hw1 & ->).
  destruct Ef as (Hf & w2 & Hw2 & ->).
  destruct Ed as (Hd & w3 & Hw3 & ->).
  destruct Ew as (Hw4 & -> & Hw4' & _).
  destruct Es as (-> & Htext & _).
  split; [now split|]. do 4 (split; [assumption|]).
  exists w1, w2, w3, w4, rest.
  do 3 (split; [assumption|]). split; [now split|]. split; [assumption|].
  subst. reflexivity.
Qed.

Lemma message_rest_tl c z : message_rest (c :: z) -> message_rest z.
Proof.
  intros (text & rest & E & Ht & Hr). destruct text as [|x text].
  - simpl in E. subst rest. destruct z; [|discriminate].
    now exists [], [].
  - inversion E; subst. simpl in Ht. apply andb_true_iff in Ht.
    exists text, rest. tauto.
Qed.

Lemma message_rest_span z :
  message_rest z -> at_end (snd (span not_newline z)) = true.
Proof.
  induction z as [|c z IH]; intros H; [reflexivity|]. simpl.
  destruct (not_newline c) eqn:Ec.
  - specialize (IH (message_rest_tl H)).
    now destruct (span not_newline z).
  - destruct H as (text & rest & E & Ht & Hr). destruct text as [|x text].
    + simpl in E. now subst rest.
    + inversion E; subst. simpl in Ht. rewrite Ec in Ht. discriminate.
Qed.

Lemma message_rest_skip f z : message_rest z -> message_rest (snd (span f z)).
Proof.
  induction z as [|c z IH]; intros H; [assumption|]. simpl.
  destruct (f c); [|assumption].
  specialize (IH (message_rest_tl H)). now destruct (span f z).
Qed.

Lemma span_app_run f w z :
  forallb f w = true ->
  span f (w ++ z) = (w ++ fst (span f z), snd (span f z)).
Proof.
  intros H. induction w as [|c w IH]; simpl.
  - now destruct (span f z).
  - simpl in H. apply andb_true_iff in H. destruct H as [Hc Hw].
    now rewrite Hc, IH.
Qed.

(** Wherever a backtracking search could stop the last [\s+], the longest run
    of blanks leads to a match as well. *)
Lemma message_of_complete tail : message_tail tail -> message_of tail <> None.
Proof.
  intros (w & text & rest & -> & [Hne Hw] & Ht & Hr).
  assert (Hz : message_rest (text ++ rest)).
  { exists text, rest. destruct Hr; subst; auto. }
  unfold message_of, many1. rewrite span_app_run by assumption.
  destruct w as [|c w]; [congruence|]. cbn [app obind snd].
  apply (message_rest_skip is_space) in Hz. apply message_rest_span in Hz.
  destruct (span not_newline (snd (span is_space (text ++ rest)))).
  simpl in Hz. rewrite Hz. discriminate.
Qed.

(** A line has a match exactly when it reads as the pattern says: the four
    bracket groups in order, blanks after each, a message without line feed. *)
Lemma LINE_RE_match_grammar line :
  LINE_RE_match line <> None <->
  exists t w1 m w2 f w3 d tail,
    timestamp t /\ blank w1 /\ digits m /\ blank w2 /\ digits f /\
    blank w3 /\ digits d /\ message_tail tail /\
    line = bracket_line t w1 m w2 f w3 d tail.
Proof.
  split.
  - destruct (LINE_RE_match line) as [g|] eqn:E; [intros _ | congruence].
    destruct (LINE_RE_match_groups _ E)
      as (Ht & Hm & Hf & Hd & Hx & w1 & w2 & w3 & w4 & rest
            & Hw1 & Hw2 & Hw3 & Hw4 & Hr & ->).
    exists (group_ts g), w1, (group_mono g), w2, (group_frame g), w3,
      (group_tid g), (w4 ++ group_msg g ++ rest).
    repeat (split; [assumption|]). split; [|reflexivity].
    exists w4, (group_msg g), rest. repeat (split; [assumption|]).
    destruct rest as [|c [|c' rest]]; simpl in Hr; try discriminate; auto.
    apply N.eqb_eq in Hr. subst c. auto.
  - intros (t & w1 & m & w2 & f & w3 & d & tail
              & Ht & Hw1 & Hm & Hw2 & Hf & Hw3 & Hd & Htail & ->).
    rewrite LINE_RE_match_bracket_line by assumption.
    apply message_of_complete in Htail. unfold message_of in Htail.
    destruct (many1 is_space tail) as [w|]; cbn [obind] in *; [|congruence].
    destruct (span not_newline (snd w)) as [text rest].
    destruct (at_end rest); congruence.
Qed.

(** ** Integer conversion *)

Lemma is_digit_value c : is_digit c = true -> exists v, digit_value c = Some v.
Proof.
  unfold is_digit. destruct (digit_value c) as [v|]; [eauto | discriminate].
Qed.

Lemma int_digits_ok s acc :
  forallb is_digit s = true -> exists n, int_digits acc s = Ok n.
Proof.
  revert acc. induction s as [|c s IH]; simpl; intros acc H; [eauto|].
  apply andb_true_iff in H. destruct H as [Hc Hs].
  destruct (is_digit_value c Hc) as [v ->]. now apply IH.
Qed.

Lemma exceeds_within m : exceeds m = false <-> within_limit m.
Proof. unfold exceeds, within_limit. apply N.ltb_ge. Qed.

Lemma exceeds_beyond m : exceeds m = true <-> ~ within_limit m.
Proof. unfold exceeds, within_limit. rewrite N.ltb_lt. lia. Qed.

Lemma int_within m :
  m <> [] -> within_limit m -> int m = int_digits 0 m.
Proof.
  intros Hne Hw. apply exceeds_within in Hw. unfold exceeds in Hw.
  unfold int. destruct m as [|c m]; [congruence|]. now rewrite Hw.
Qed.

(** A text of more digits than the limit allows is refused. *)
Lemma int_beyond m : exceeds m = true -> int m = Raise ValueError.
Proof.
  intros H. unfold exceeds in H. unfold int.
  destruct m as [|c m]; [reflexivity|]. now rewrite H.
Qed.

Lemma int_Ok_inv m n :
  int m = Ok n -> m <> [] /\ within_limit m /\ int_digits 0 m = Ok n.
Proof.
  intros H. destruct m as [|c m]; [discriminate|].
  split; [discriminate|].
  destruct (exceeds (c :: m)) eqn:E.
  - rewrite int_beyond in H by assumption. discriminate.
  - apply exceeds_within in E. split; [assumption|].
    now rewrite int_within in H by (assumption || discriminate).
Qed.

(** On the text of a [\d+] group within the limit [int] returns. *)
Lemma int_ok m : digits m -> within_limit m -> exists n, int m = Ok n.
Proof.
  intros [Hne Hd] Hw. rewrite int_within by assumption.
  now apply int_digits_ok.
Qed.

Lemma zeros_digits k m : digits m -> digits (zeros k ++ m).
Proof.
  intros [Hne Hd]. split.
  - destruct k; simpl; [assumption | discriminate].
  - rewrite forallb_app, Hd, andb_true_r. unfold zeros.
    induction k; simpl; [reflexivity | assumption].
Qed.

Lemma int_digits_zeros k m : int_digits 0 (zeros k ++ m) = int_digits 0 m.
Proof. induction k as [|k IH]; [reflexivity | exact IH]. Qed.

(** Leading zeros do not change the value, as long as the text with them
    stays within the limit. *)
Lemma int_zeros k m :
  digits m -> within_limit (zeros k ++ m) -> int (zeros k ++ m) = int m.
Proof.
  intros Hm Hw. assert (Hz := zeros_digits k Hm).
  destruct Hm as [Hne Hd], Hz as [Hne' _].
  assert (Hw' : within_limit m).
  { unfold within_limit in *. rewrite length_app in Hw. lia. }
  rewrite !int_within by assumption. apply int_digits_zeros.
Qed.

Lemma ascii_digit_cases c :
  ascii_digit c = true ->
  c = 48 \/ c = 49 \/ c = 50 \/ c = 51 \/ c = 52 \/
  c = 53 \/ c = 54 \/ c = 55 \/ c = 56 \/ c = 57.
Proof. unfold ascii_digit. intros H. bool_to_prop. lia. Qed.

Ltac ascii_cases c H :=
  destruct (ascii_digit_cases c H) as
    [?|[?|[?|[?|[?|[?|[?|[?|[?|?]]]]]]]]]; subst c.

Lemma digit_value_ascii c : ascii_digit c = true -> digit_value c = Some (c - 48).
Proof. intros H. ascii_cases c H; reflexivity. Qed.

Lemma ascii_digits_digits s :
  forallb ascii_digit s = true -> forallb is_digit s = true.
Proof.
  induction s as [|c s IH]; simpl; [reflexivity|].
  intros H. apply andb_true_iff in H. destruct H as [Hc Hs].
  rewrite IH by assumption. unfold is_digit.
  now rewrite digit_value_ascii.
Qed.

Lemma int_digits_of_lu s d :
  forallb ascii_digit s = true ->
  int_digits (DecimalPos.Unsigned.of_lu d) s =
  Ok (DecimalPos.Unsigned.of_lu (revapp (uint_of_text s) d)).
Proof.
  revert d. induction s as [|c s IH]; intros d H; [reflexivity|].
  cbn [forallb] in H. apply andb_true_iff in H. destruct H as [Hc Hs].
  cbn [int_digits uint_of_text].
  rewrite digit_value_ascii by assumption.
  ascii_cases c Hc;
    match goal with
    | |- context [?a - 48] =>
        let v := eval vm_compute in (a - 48) in change (a - 48) with v
    end;
    cbn [digit_cons revapp]; rewrite <- IH by assumption; f_equal;
    cbn [DecimalPos.Unsigned.of_lu]; lia.
Qed.

Lemma int_ascii m :
  m <> [] -> within_limit m -> forallb ascii_digit m = true ->
  int m = Ok (N.of_uint (uint_of_text m)).
Proof.
  intros Hne Hw H. rewrite int_within by assumption.
  change 0 with (DecimalPos.Unsigned.of_lu Nil).
  rewrite int_digits_of_lu by assumption.
  unfold N.of_uint. now rewrite DecimalPos.Unsigned.of_uint_alt.
Qed.





(** ** Parsing a line written from its parts *)

Lemma rstrip_newline_app_cons a c b :
  c <> LF -> rstrip_newline (a ++ c :: b) = a ++ c :: rstrip_newline b.
Proof.
  intros Hc. induction a as [|x a IH]; simpl.
  - destruct (rstrip_newline b); [|reflexivity].
    now destruct (N.eqb_spec c LF).
  - rewrite IH. now destruct a.
Qed.

Lemma rstrip_newline_forallb f s :
  forallb f s = true -> forallb f (rstrip_newline s) = true.
Proof.
  induction s as [|c s IH]; simpl; [reflexivity|].
  intros H. apply andb_true_iff in H. destruct H as [Hc Hs].
  specialize (IH Hs). destruct (rstrip_newline s) as [|y r].
  - destruct (c =? LF); simpl; [reflexivity | now rewrite Hc].
  - simpl in *. now rewrite Hc.
Qed.

Lemma bracket_line_head t w1 m w2 f w3 d tail :
  bracket_line t w1 m w2 f w3 d tail =
  bracket_head t w1 m w2 f w3 d ++ 93 :: tail.
Proof.
  unfold bracket_line, bracket_head.
  repeat rewrite <- app_assoc. reflexivity.
Qed.

Lemma rstrip_newline_bracket_line t w1 m w2 f w3 d tail :
  rstrip_newline (bracket_line t w1 m w2 f w3 d tail) =
  bracket_line t w1 m w2 f w3 d (rstrip_newline tail).
Proof.
  rewrite !bracket_line_head. apply rstrip_newline_app_cons. discriminate.
Qed.

Lemma parse_line_bracket_line name t w1 m w2 f w3 d tail :
  timestamp t -> blank w1 -> digits m -> blank w2 -> digits f ->
  blank w3 -> digits d ->
  parse_line name (bracket_line t w1 m w2 f w3 d tail) =
  match message_of (rstrip_newline tail) with
  | None => Ok None
  | Some text =>
      mono <- int m ;;
      fr <- int f ;;
      td <- int d ;;
      Ok (Some {| file := name; ts := t; mono_ms := mono; frame := fr;
                  tid := td; msg := text |})
  end.
Proof.
  intros Ht Hw1 Hm Hw2 Hf Hw3 Hd. unfold parse_line.
  rewrite rstrip_newline_bracket_line.
  rewrite LINE_RE_match_bracket_line by assumption.
  unfold message_of.
  destruct (many1 is_space (rstrip_newline tail)) as [w|]; [|reflexivity].
  cbn [obind]. destruct (span not_newline (snd w)) as [text rest].
  destruct (at_end rest); reflexivity.
Qed.

Lemma message_of_blank w :
  blank w -> rstrip_newline w <> [] -> message_of (rstrip_newline w) = Some [].
Proof.
  intros [_ Hw] Hne. unfold message_of.
  rewrite <- (app_nil_r (rstrip_newline w)).
  rewrite many1_app;
    [reflexivity | assumption | now apply rstrip_newline_forallb | exact I].
Qed.

Lemma int_Ok_exceeds m n : int m = Ok n -> exceeds m = false.
Proof.
  intros H. apply exceeds_within. now destruct (int_Ok_inv _ H) as (_ & Hw & _).
Qed.

(** A line either does not match, or matches with every numeric field within
    the limit and every [int] returns, or matches with a field beyond the
    limit and an [int] raises. *)
Lemma parse_line_cases name raw :
  (LINE_RE_match (rstrip_newline raw) = None /\ parse_line name raw = Ok None) \/
  (exists g mono fr td,
     LINE_RE_match (rstrip_newline raw) = Some g /\
     int (group_mono g) = Ok mono /\
     int (group_frame g) = Ok fr /\
     int (group_tid g) = Ok td /\
     parse_line name raw =
     Ok (Some {| file := name; ts := group_ts g; mono_ms := mono;
                 frame := fr; tid := td; msg := group_msg g |})) \/
  (exists g,
     LINE_RE_match (rstrip_newline raw) = Some g /\
     field_overlong g = true /\
     parse_line name raw = Raise ValueError).
Proof.
  unfold parse_line.
  destruct (LINE_RE_match (rstrip_newline raw)) as [g|] eqn:E; [right | now left].
  destruct (LINE_RE_match_groups _ E) as (_ & Hm & Hf & Hd & _).
  destruct (exceeds (group_mono g)) eqn:Xm.
  { right. exists g. unfold field_overlong.
    rewrite (int_beyond _ Xm), Xm. repeat split; reflexivity. }
  destruct (int_ok Hm (proj1 (exceeds_within _) Xm)) as [mono Em]. rewrite Em.
  destruct (exceeds (group_frame g)) eqn:Xf.
  { right. exists g. unfold field_overlong.
    rewrite (int_beyond _ Xf), Xm, Xf. repeat split; reflexivity. }
  destruct (int_ok Hf (proj1 (exceeds_within _) Xf)) as [fr Ef]. rewrite Ef.
  destruct (exceeds (group_tid g)) eqn:Xd.
  { right. exists g. unfold field_overlong.
    rewrite (int_beyond _ Xd), Xm, Xf, Xd. repeat split; reflexivity. }
  destruct (int_ok Hd (proj1 (exceeds_within _) Xd)) as [td Ed]. rewrite Ed.
  left. exists g, mono, fr, td. repeat split; (assumption || reflexivity).
Qed.

(** Whether a raw line is overlong decides between the last two cases. *)
Lemma parse_line_overlong name raw :
  (overlong raw = true -> parse_line name raw = Raise ValueError) /\
  (overlong raw = false -> exists r, parse_line name raw = Ok r).
Proof.
  unfold overlong.
  destruct (parse_line_cases name raw)
    as [[Eg E] | [(g & mono & fr & td & Eg & Em & Ef & Ed & E) | (g & Eg & Ho & E)]];
    rewrite Eg, E.
  - split; [discriminate | eauto].
  - split; [|eauto]. unfold field_overlong.
    rewrite (int_Ok_exceeds _ Em), (int_Ok_exceeds _ Ef), (int_Ok_exceeds _ Ed).
    discriminate.
  - split; [reflexivity | congruence].
Qed.

(** ** The line parser *)

(** C5, as the claim states it, fails: a line that matches the grammar with
    a numeric field of 4301 digits gives neither a record nor nothing, the
    conversion of the field raises. *)
Lemma parse_line_overlong_counterexample :
  parse_line (codes "a.log") overlong_line = Raise ValueError /\
  ~ (parse_line (codes "a.log") overlong_line = Ok None \/
     exists e, parse_line (codes "a.log") overlong_line = Ok (Some e)).
Proof.
  assert (H : parse_line (codes "a.log") overlong_line = Raise ValueError)
    by (vm_compute; reflexivity).
  split; [exact H|]. rewrite H. intros [E|[e E]]; discriminate.
Qed.

(** C5, amended. For every line of text the line parser gives no record
    when the line does not match the grammar, and never raises on such a
    line; it gives a record whose six attributes are all set (the name of the
    file, the text of the timestamp group, not empty, the values of the three
    numeric groups, the text of the message group) when the line matches and
    each numeric field has at most 4300 digits; it raises [ValueError] when
    the line matches and a numeric field has more digits.  There is no
    fourth case: never a partial record. *)
Theorem parse_line_record_or_nothing : forall name raw,
  (LINE_RE_match (rstrip_newline raw) = None /\
   parse_line name raw = Ok None) \/
  (exists g mono fr td,
     LINE_RE_match (rstrip_newline raw) = Some g /\
     field_overlong g = false /\
     group_ts g <> [] /\
     int (group_mono g) = Ok mono /\
     int (group_frame g) = Ok fr /\
     int (group_tid g) = Ok td /\
     parse_line name raw =
     Ok (Some {| file := name; ts := group_ts g; mono_ms := mono;
                 frame := fr; tid := td; msg := group_msg g |})) \/
  (exists g,
     LINE_RE_match (rstrip_newline raw) = Some g /\
     field_overlong g = true /\
     parse_line name raw = Raise ValueError).
Proof.
  intros name raw.
  destruct (parse_line_cases name raw)
    as [H | [(g & mono & fr & td & Eg & Em & Ef & Ed & E) | H]].
  - now left.
  - right. left. exists g, mono, fr, td.
    destruct (LINE_RE_match_groups _ Eg) as ([Ht _] & _).
    split; [assumption|]. split.
    { unfold field_overlong.
      now rewrite (int_Ok_exceeds _ Em), (int_Ok_exceeds _ Ef), (int_Ok_exceeds _ Ed). }
    repeat (split; [assumption|]). assumption.
  - now right; right.
Qed.

(** C8, as the claim states it, fails: a line that ends right after the
    closing bracket of the [tid] group gives no record. *)
Lemma empty_message_needs_blank_counterexample :
  parse_line (codes "a.log") (codes "[t0] [mono_ms=1] [frame=2] [tid=3]") = Ok None /\
  ~ (exists e, parse_line (codes "a.log") (codes "[t0] [mono_ms=1] [frame=2] [tid=3]")
               = Ok (Some e) /\ msg e = []).
Proof.
  split; [reflexivity|].
  intros (e & H & _). vm_compute in H. discriminate.
Qed.

(** C8, amended. A line made of the four bracket groups in order, each
    numeric field of at most 4300 digits, and then only whitespace, at least
    one character of which is left once the trailing line feeds are stripped,
    gives a record with the empty message; the same line ending right after
    the last bracket gives no record. *)
Theorem empty_message_after_blank : forall name t w1 m w2 f w3 d w4,
  timestamp t -> blank w1 -> digits m -> blank w2 -> digits f ->
  blank w3 -> digits d -> blank w4 -> rstrip_newline w4 <> [] ->
  within_limit m -> within_limit f -> within_limit d ->
  (exists mono fr td,
     parse_line name (bracket_line t w1 m w2 f w3 d w4) =
     Ok (Some {| file := name; ts := t; mono_ms := mono; frame := fr;
                 tid := td; msg := [] |})) /\
  parse_line name (bracket_line t w1 m w2 f w3 d []) = Ok None.
Proof.
  intros name t w1 m w2 f w3 d w4 Ht Hw1 Hm Hw2 Hf Hw3 Hd Hw4 Hne Lm Lf Ld.
  split.
  - rewrite parse_line_bracket_line by assumption.
    rewrite message_of_blank by assumption.
    destruct (int_ok Hm Lm) as [mono ->], (int_ok Hf Lf) as [fr ->],
      (int_ok Hd Ld) as [td ->].
    exists mono, fr, td. reflexivity.
  - rewrite parse_line_bracket_line by assumption. reflexivity.
Qed.

Lemma empty_message_after_blank_witness :
  (exists mono fr td,
     parse_line (codes "a.log")
       (bracket_line (codes "t0") (codes " ") (codes "1") (codes " ")
          (codes "2") (codes " ") (codes "3") (codes " ")) =
     Ok (Some {| file := codes "a.log"; ts := codes "t0"; mono_ms := mono;
                 frame := fr; tid := td; msg := [] |})) /\
  parse_line (codes "a.log")
    (bracket_line (codes "t0") (codes " ") (codes "1") (codes " ")
       (codes "2") (codes " ") (codes "3") []) = Ok None.
Proof.
  apply empty_message_after_blank;
    first [ discriminate | split; [discriminate | reflexivity] ].
Defined.




(** C10, as the claim states it, fails: with 4300 zeros in front of its
    [mono_ms] the line of the example still matches the grammar, and the
    parser stores no value for it, the conversion raises. *)
Lemma leading_zeros_overlong_counterexample :
  parse_line (codes "a.log")
    (bracket_line (codes "t0") (codes " ") (codes "7") (codes " ")
       (codes "1") (codes " ") (codes "5") (codes " hello"))
  = Ok (Some {| file := codes "a.log"; ts := codes "t0"; mono_ms := 7;
                frame := 1; tid := 5; msg := codes "hello" |}) /\
  matches_grammar
    (bracket_line (codes "t0") (codes " ") (zeros (N.to_nat 4300) ++ codes "7")
       (codes " ") (codes "1") (codes " ") (codes "5") (codes " hello")) = true /\
  parse_line (codes "a.log")
    (bracket_line (codes "t0") (codes " ") (zeros (N.to_nat 4300) ++ codes "7")
       (codes " ") (codes "1") (codes " ") (codes "5") (codes " hello"))
  = Raise ValueError.
Proof. split; [|split]; vm_compute; reflexivity. Qed.

(** C10, amended. For every matching line, writing leading zeros in front
    of its numeric fields, as long as no field grows beyond 4300 digits, gives
    the very same record: the parser keeps the value of the digits and nothing
    of their text, so lines that differ in the text of [mono_ms], [frame] or
    [tid] can give equal records, with equal sort keys. *)
Theorem leading_zeros_normalized : forall name t w1 m w2 f w3 d tail e z1 z2 z3,
  timestamp t -> blank w1 -> digits m -> blank w2 -> digits f ->
  blank w3 -> digits d ->
  within_limit (zeros z1 ++ m) -> within_limit (zeros z2 ++ f) ->
  within_limit (zeros z3 ++ d) ->
  parse_line name (bracket_line t w1 m w2 f w3 d tail) = Ok (Some e) ->
  parse_line name
    (bracket_line t w1 (zeros z1 ++ m) w2 (zeros z2 ++ f) w3 (zeros z3 ++ d) tail)
  = Ok (Some e) /\
  int (zeros z1 ++ m) = Ok (mono_ms e) /\
  int (zeros z2 ++ f) = Ok (frame e) /\
  int (zeros z3 ++ d) = Ok (tid e).
Proof.
  intros name t w1 m w2 f w3 d tail e z1 z2 z3 Ht Hw1 Hm Hw2 Hf Hw3 Hd Lm Lf Ld H.
  rewrite parse_line_bracket_line by (assumption || now apply zeros_digits).
  rewrite parse_line_bracket_line in H by assumption.
  rewrite !int_zeros by assumption.
  split; [exact H|].
  destruct (message_of (rstrip_newline tail)) as [text|]; [|discriminate].
  destruct (int m) as [mono|]; [|discriminate].
  destruct (int f) as [fr|]; [|discriminate].
  destruct (int d) as [td|]; [|discriminate].
  simpl in H. inversion H; subst e. simpl. auto.
Qed.

Lemma leading_zeros_normalized_witness :
  parse_line (codes "a.log")
    (bracket_line (codes "t0") (codes " ") (codes "007") (codes " ")
       (codes "1") (codes " ") (codes "05") (codes " hello"))
  = Ok (Some {| file := codes "a.log"; ts := codes "t0"; mono_ms := 7;
                frame := 1; tid := 5; msg := codes "hello" |}) /\
  int (codes "007") = Ok 7 /\ int (codes "1") = Ok 1 /\ int (codes "05") = Ok 5.
Proof.
  apply (@leading_zeros_normalized (codes "a.log") (codes "t0") (codes " ")
           (codes "7") (codes " ") (codes "1") (codes " ") (codes "5")
           (codes " hello")
           {| file := codes "a.log"; ts := codes "t0"; mono_ms := 7;
              frame := 1; tid := 5; msg := codes "hello" |}
           2%nat 0%nat 1%nat);
    first [ reflexivity | discriminate | split; [discriminate | reflexivity] ].
Defined.

(** ** The merge engine *)

(** C1. In every run the merged sequence is in ascending order of the key
    [(mono_ms, frame, source_name)]: each adjacent pair [(a, b)] of it has
    [key a <= key b], the names compared as plain text. *)
Theorem merged_events_sorted : forall log_files events,
  merged_events log_files = Ok events -> adjacent_pairs key_le events.
Proof.
  intros log_files events H. unfold merged_events in H.
  destruct (ingest log_files []) as [evs|x]; simpl in H; [|discriminate].
  inversion H; subst events. apply sort_events_sorted.
Qed.

Lemma merged_events_sorted_witness :
  key_le
    {| file := codes "a.log"; ts := codes "t2"; mono_ms := 7; frame := 3;
       tid := 2; msg := codes "from a" |}
    {| file := codes "b.log"; ts := codes "t1"; mono_ms := 7; frame := 3;
       tid := 1; msg := codes "from b" |}.
Proof.
  apply (@merged_events_sorted scenario6 _ eq_refl []
           {| file := codes "a.log"; ts := codes "t2"; mono_ms := 7; frame := 3;
              tid := 2; msg := codes "from a" |}
           {| file := codes "b.log"; ts := codes "t1"; mono_ms := 7; frame := 3;
              tid := 1; msg := codes "from b" |} []).
  reflexivity.
Defined.

(** ** Input discovery and validation *)

Lemma glob_log_none entries :
  (forall p, In p entries -> ends_with (codes ".log") (path_name p) = false) ->
  glob_log entries = [].
Proof.
  intros H. unfold glob_log. induction entries as [|p l IH]; simpl; [reflexivity|].
  rewrite (H p) by now left. apply IH. intros q Hq. apply H. now right.
Qed.

(** The log files are the entries of the directory itself whose name ends in
    [.log], whatever they are, in ascending order of their names. *)
Lemma log_files_enumerated entries :
  (forall p, In p (sorted_paths (glob_log entries)) <->
             In p entries /\ ends_with (codes ".log") (path_name p) = true) /\
  adjacent_pairs (fun p q => str_le (path_name p) (path_name q))
    (sorted_paths (glob_log entries)).
Proof.
  split.
  - intros p. unfold sorted_paths. rewrite stable_sort_In.
    unfold glob_log. apply filter_In.
  - apply ordpairs_adjacent.
    apply ordpairs_weaken with (R := sorted_stably path_ltb (fun _ _ => True)).
    + intros x y [H _]. now apply str_ltb_le.
    + apply stable_sort_stably.
      * intros x y. apply str_ltb_asym.
      * intros x y z. apply str_ltb_le_trans.
      * now apply ordpairs_all.
Qed.

(** C6. The subdirectory [crash.log] is not ignored: it is listed among the
    log files, opening it raises and the run ends without a report, where the
    same directory without it gives the report of [engine.log]. *)
Theorem main_subdirectory_named_log_raises :
  main (codes "logs") (Some with_subdirectory) = Raise IsADirectoryError /\
  main (codes "logs") (Some without_subdirectory) =
  Ok {| exit_code := 0;
        stdout := [ codes "total_events=1";
                    codes "events_by_component_log:";
                    codes "  engine.log: 1";
                    codes "top_frames_by_event_count:";
                    codes "  frame=1 events=1";
                    codes "anomaly_events:";
                    codes "  (none)" ];
        stderr := [] |}.
Proof. split; vm_compute; reflexivity. Qed.

(** C7, as the claim states it, fails: for a directory without log files the
    message has no colon before the path. *)
Lemma no_log_files_message_counterexample :
  exists r,
    main (codes "logs") (Some (Dir [])) = Ok r /\
    exit_code r = 2 /\
    stderr r = [codes "error: no .log files found in logs"] /\
    ~ (exists reason,
         stderr r = [codes "error: " ++ reason ++ codes ": " ++ codes "logs"]).
Proof.
  eexists. split; [reflexivity|]. split; [reflexivity|]. split; [reflexivity|].
  intros [reason H]. simpl in H. inversion H as [H']. clear H.
  apply (f_equal (@rev char)) in H'.
  rewrite rev_app_distr in H'. simpl in H'. discriminate.
Qed.

(** C7, amended. When the path leads nowhere or to something that is not a
    directory, the program exits with code 2, prints nothing on standard
    output and prints [error: trace_dir not found: <path>] on standard error;
    when it leads to a directory none of whose entries has a name ending in
    [.log], the same with the message [error: no .log files found in <path>]. *)
Theorem main_rejects_missing_input : forall trace_dir target,
  match target with
  | Some (Dir entries) =>
      forall p, In p entries -> ends_with (codes ".log") (path_name p) = false
  | _ => True
  end ->
  main trace_dir target =
  Ok {| exit_code := 2; stdout := [];
        stderr := [match target with
                   | Some (Dir _) => codes "error: no .log files found in "
                   | _ => codes "error: trace_dir not found: "
                   end ++ trace_dir] |}.
Proof.
  intros trace_dir [[raws|entries|why]|] H; try reflexivity.
  unfold main. now rewrite (glob_log_none _ H).
Qed.

Lemma main_rejects_missing_input_witness :
  main (codes "logs") (Some (Dir [(codes "notes.txt", File []); (codes "old", Dir [])])) =
  Ok {| exit_code := 2; stdout := [];
        stderr := [codes "error: no .log files found in " ++ codes "logs"] |}.
Proof.
  apply (@main_rejects_missing_input (codes "logs")
           (Some (Dir [(codes "notes.txt", File []); (codes "old", Dir [])]))).
  intros p [<-|[<-|[]]]; reflexivity.
Defined.

(** ** The anomaly list *)

Lemma starts_with_prefix p s :
  starts_with p s = true <-> exists post, s = p ++ post.
Proof.
  revert s. induction p as [|x p IH]; intros s; simpl.
  - split; [intros _; now exists s | reflexivity].
  - destruct s as [|y s].
    + split; [discriminate | intros [post H]; discriminate].
    + unfold char_eqb. rewrite andb_true_iff, N.eqb_eq, IH. split.
      * intros [-> [post ->]]. now exists post.
      * intros [post H]. inversion H. split; [reflexivity | now exists post].
Qed.

(** [p in s] holds exactly when [p] is a plain substring of [s]. *)
Lemma contains_substring p s : contains p s = true <-> substring p s.
Proof.
  unfold substring. induction s as [|c s IH].
  - simpl. rewrite orb_false_r, starts_with_prefix. split.
    + intros [post H]. now exists [], post.
    + intros (pre & post & H). destruct pre; [now exists post|discriminate].
  - cbn [contains]. rewrite orb_true_iff, starts_with_prefix, IH. split.
    + intros [[post H]|(pre & post & H)].
      * now exists [], post.
      * exists (c :: pre), post. now rewrite H.
    + intros (pre & post & H). destruct pre as [|x pre].
      * left. now exists post.
      * right. inversion H. now exists pre, post.
Qed.

Lemma is_anomaly_anomalous e : is_anomaly (msg e) = true <-> anomalous e.
Proof.
  unfold is_anomaly, anomalous, keywords.
  rewrite !orb_true_iff, !contains_substring. split.
  - intros [[H|H]|H]; eexists; (split; [|exact H]); simpl; auto.
  - intros (kw & Hkw & H). simpl in Hkw.
    destruct Hkw as [<-|[<-|[<-|[]]]]; auto.
Qed.

Lemma tally_anomalies events t :
  anomalies (fold_left tally_step events t) =
  anomalies t ++ filter (fun e => is_anomaly (msg e)) events.
Proof.
  revert t. induction events as [|e events IH]; intros t; simpl.
  - now rewrite app_nil_r.
  - rewrite IH. simpl. destruct (is_anomaly (msg e)); [|reflexivity].
    now rewrite <- app_assoc.
Qed.

Lemma selection_filter events :
  selection anomalous events (filter (fun e => is_anomaly (msg e)) events).
Proof.
  induction events as [|e events IH]; simpl; [constructor|].
  destruct (is_anomaly (msg e)) eqn:E.
  - apply selection_keep; [now apply is_anomaly_anomalous | assumption].
  - apply selection_skip; [|assumption].
    intros H. apply is_anomaly_anomalous in H. congruence.
Qed.

Lemma last_n_split (A : Type) (n : nat) (l : list A) :
  l = firstn (length l - n) l ++ last_n n l /\
  length (last_n n l) = Nat.min n (length l).
Proof.
  unfold last_n. split; [now rewrite firstn_skipn|].
  rewrite length_skipn. lia.
Qed.

(** C3. The section [anomaly_events] lists the records whose message holds
    one of the three keywords as a plain substring, all of them and no other,
    in merge order, cut down to the last 50 of them when there are more; when
    there is none it is the single line [  (none)]. *)
Theorem anomaly_events_listed : forall events,
  exists found,
    selection anomalous events found /\
    match found with
    | [] => anomaly_events events = [codes "  (none)"]
    | _ :: _ =>
        exists omitted shown,
          found = omitted ++ shown /\
          length shown = Nat.min 50 (length found) /\
          anomaly_events events = List.map anomaly_row shown
    end.
Proof.
  intros events.
  exists (filter (fun e => is_anomaly (msg e)) events).
  split; [apply selection_filter|].
  unfold anomaly_events, tally_events. rewrite tally_anomalies. simpl.
  destruct (filter (fun e => is_anomaly (msg e)) events) as [|e found] eqn:E.
  - reflexivity.
  - exists (firstn (length (e :: found) - 50) (e :: found)), (last_n 50 (e :: found)).
    destruct (last_n_split 50 (e :: found)) as [H1 H2].
    split; [exact H1|]. split; [exact H2|]. reflexivity.
Qed.

(** ** Counters *)

Section FirstSeen.
Variable K : Type.

Lemma first_at_snoc_old (k x : K) ks p :
  first_at k ks p -> first_at k (ks ++ [x]) p.
Proof.
  intros [Hp Hq].
  assert (Hlen : (p < length ks)%nat) by (apply nth_error_Some; congruence).
  split.
  - now rewrite nth_error_app1.
  - intros q Hlt. rewrite nth_error_app1 by lia. now apply Hq.
Qed.

Lemma first_at_snoc_new (k : K) ks :
  ~ In k ks -> first_at k (ks ++ [k]) (length ks).
Proof.
  intros Hnot. split.
  - rewrite nth_error_app2 by lia. now rewrite Nat.sub_diag.
  - intros q Hlt. rewrite nth_error_app1 by lia.
    intros H. apply Hnot. eapply nth_error_In. eassumption.
Qed.

Lemma first_seen_before_snoc ks (a b x : K) :
  first_seen_before ks a b -> first_seen_before (ks ++ [x]) a b.
Proof.
  intros (p & q & Ha & Hb & Hlt).
  exists p, q. auto using first_at_snoc_old.
Qed.

Lemma ordpairs_snoc (R : K -> K -> Prop) l k :
  ForallOrdPairs R l -> Forall (fun a => R a k) l ->
  ForallOrdPairs R (l ++ [k]).
Proof.
  induction 1 as [|a l Ha Hl IH]; intros Hk; simpl.
  - constructor; constructor.
  - inversion Hk; subst. constructor; [|now apply IH].
    apply Forall_app. split; [assumption|]. now constructor.
Qed.

Lemma ordpairs_map (B : Type) (f : B -> K) (R : K -> K -> Prop) l :
  ForallOrdPairs R (List.map f l) ->
  ForallOrdPairs (fun x y => R (f x) (f y)) l.
Proof.
  induction l as [|x l IH]; simpl; intros H; [constructor|].
  inversion H; subst. constructor; [|now apply IH].
  apply Forall_forall. intros y Hy.
  match goal with F : Forall _ _ |- _ => rewrite Forall_forall in F; apply F end.
  now apply in_map.
Qed.
End FirstSeen.

Section CounterFacts.
Variable K : Type.
Variable eqb : K -> K -> bool.
Hypothesis eqb_eq : forall a b, eqb a b = true <-> a = b.

Lemma count_keys_snoc ks k :
  count_keys eqb (ks ++ [k]) = incr eqb k (count_keys eqb ks).
Proof. unfold count_keys. now rewrite fold_left_app. Qed.

Lemma sum_counts_incr k (c : counter K) :
  sum_counts (incr eqb k c) = sum_counts c + 1.
Proof.
  induction c as [|[k' n] c IH]; simpl; [reflexivity|].
  destruct (eqb k' k); simpl; lia.
Qed.

Lemma sum_counts_count_keys ks :
  sum_counts (count_keys eqb ks) = N.of_nat (length ks).
Proof.
  induction ks as [|k ks IH] using rev_ind; [reflexivity|].
  rewrite count_keys_snoc, sum_counts_incr, IH, length_app. simpl. lia.
Qed.

Lemma keys_incr_old k (c : counter K) :
  In k (List.map fst c) -> List.map fst (incr eqb k c) = List.map fst c.
Proof.
  induction c as [|[k' n] c IH]; simpl; [tauto|].
  intros H. destruct (eqb k' k) eqn:E; simpl; [reflexivity|].
  f_equal. apply IH. destruct H as [H|H]; [|assumption].
  apply eqb_eq in H. congruence.
Qed.

Lemma keys_incr_new k (c : counter K) :
  ~ In k (List.map fst c) -> List.map fst (incr eqb k c) = List.map fst c ++ [k].
Proof.
  induction c as [|[k' n] c IH]; simpl; [reflexivity|].
  intros H. destruct (eqb k' k) eqn:E; simpl.
  - apply eqb_eq in E. tauto.
  - f_equal. apply IH. tauto.
Qed.

Lemma In_dec_eqb k (l : list K) : In k l \/ ~ In k l.
Proof.
  induction l as [|x l IH]; simpl; [tauto|].
  destruct (eqb x k) eqn:E.
  - apply eqb_eq in E. auto.
  - destruct IH; [tauto|]. right. intros [H'|H']; [|tauto].
    apply eqb_eq in H'. congruence.
Qed.

Lemma first_at_exists k (ks : list K) :
  In k ks -> exists p, first_at k ks p /\ (p < length ks)%nat.
Proof.
  induction ks as [|x ks IH]; simpl; [tauto|].
  intros H. destruct (eqb x k) eqn:E.
  - apply eqb_eq in E. subst x. exists 0%nat. split; [|lia].
    split; [reflexivity | intros q Hq; lia].
  - assert (Hne : x <> k) by (intros Hx; apply eqb_eq in Hx; congruence).
    destruct H as [H|H]; [contradiction|].
    destruct (IH H) as (p & [Hp Hq] & Hlt).
    exists (S p). split; [|lia]. split; [exact Hp|].
    intros [|q] Hlt'; simpl; [congruence | apply Hq; lia].
Qed.

Lemma count_keys_In k ks : In k (List.map fst (count_keys eqb ks)) <-> In k ks.
Proof.
  induction ks as [|x ks IH] using rev_ind; [reflexivity|].
  rewrite count_keys_snoc, in_app_iff. simpl.
  destruct (In_dec_eqb x (List.map fst (count_keys eqb ks))) as [Hx|Hx].
  - rewrite keys_incr_old by assumption. rewrite IH. split; [tauto|].
    intros [H|[<-|[]]]; [assumption | now apply IH].
  - rewrite keys_incr_new by assumption. rewrite in_app_iff, IH. simpl. tauto.
Qed.

(** The keys of the counter stand in the order in which they were first met. *)
Lemma count_keys_order ks :
  ForallOrdPairs (first_seen_before ks) (List.map fst (count_keys eqb ks)).
Proof.
  induction ks as [|x ks IH] using rev_ind; [constructor|].
  rewrite count_keys_snoc.
  assert (IH' : ForallOrdPairs (first_seen_before (ks ++ [x]))
                  (List.map fst (count_keys eqb ks))).
  { eapply ordpairs_weaken; [|exact IH].
    intros a b. apply first_seen_before_snoc. }
  destruct (In_dec_eqb x (List.map fst (count_keys eqb ks))) as [Hx|Hx].
  - now rewrite keys_incr_old.
  - rewrite keys_incr_new by assumption.
    apply ordpairs_snoc; [assumption|].
    apply Forall_forall. intros a Ha. apply (proj1 (count_keys_In a ks)) in Ha.
    destruct (first_at_exists a ks Ha) as (p & Hp & Hlt).
    exists p, (length ks). split; [now apply first_at_snoc_old|].
    split; [|assumption]. apply first_at_snoc_new.
    intros H. apply Hx. now apply count_keys_In.
Qed.

Lemma sum_counts_insert x (l : list (K * N)) :
  sum_counts (insert_sorted (@count_ltb K) x l) = snd x + sum_counts l.
Proof.
  induction l as [|y l IH]; simpl; [reflexivity|].
  destruct (count_ltb y x); simpl; [rewrite IH|]; lia.
Qed.

Lemma sum_counts_most_common (c : counter K) :
  sum_counts (most_common c) = sum_counts c.
Proof.
  unfold most_common.
  induction c as [|x c IH]; simpl; [reflexivity|].
  now rewrite sum_counts_insert, IH.
Qed.

(** [most_common] puts larger counts first and keeps rows of equal count in
    the order of the counter. *)
Lemma most_common_stably (R : K * N -> K * N -> Prop) (c : counter K) :
  ForallOrdPairs R c ->
  ForallOrdPairs (fun r1 r2 => snd r2 <= snd r1 /\ (snd r1 = snd r2 -> R r1 r2))
    (most_common c).
Proof.
  intros H. unfold most_common.
  apply ordpairs_weaken with (R := sorted_stably (@count_ltb K) R).
  - unfold sorted_stably, count_ltb. intros x y [H1 H2]. bool_to_prop.
    split; [assumption|]. intros E. destruct H2 as [H2|H2]; [lia | assumption].
  - apply stable_sort_stably; [| |assumption]; unfold count_ltb; intros;
      bool_to_prop; lia.
Qed.

(** Both count lists of the report, for the keys [ks] in the order counted. *)
Lemma most_common_ordered ks n :
  let full := most_common (count_keys eqb ks) in
  let top := most_common_n n (count_keys eqb ks) in
  descending full /\ ties_by_first_seen ks full /\
  descending top /\ ties_by_first_seen ks top /\ (length top <= n)%nat.
Proof.
  intros full top.
  assert (H : ForallOrdPairs
                (fun r1 r2 => snd r2 <= snd r1 /\
                   (snd r1 = snd r2 -> first_seen_before ks (fst r1) (fst r2)))
                full).
  { apply most_common_stably. apply ordpairs_map. apply count_keys_order. }
  assert (H' : ForallOrdPairs
                 (fun r1 r2 => snd r2 <= snd r1 /\
                    (snd r1 = snd r2 -> first_seen_before ks (fst r1) (fst r2)))
                 top) by now apply ordpairs_firstn.
  repeat split.
  - apply ordpairs_adjacent. eapply ordpairs_weaken; [|exact H]. now intros x y [? _].
  - intros l1 r1 l2 r2 l3 E Hc. rewrite E in H.
    apply ordpairs_split in H. now apply H.
  - apply ordpairs_adjacent. eapply ordpairs_weaken; [|exact H']. now intros x y [? _].
  - intros l1 r1 l2 r2 l3 E Hc. rewrite E in H'.
    apply ordpairs_split in H'. now apply H'.
  - apply firstn_le_length.
Qed.
End CounterFacts.

(** ** The counts of the report *)

Lemma tally_by_file events t :
  by_file (fold_left tally_step events t) =
  fold_left (fun c k => incr str_eqb k c) (List.map file events) (by_file t).
Proof.
  revert t. induction events as [|e events IH]; intros t; simpl; [reflexivity|].
  now rewrite IH.
Qed.

Lemma tally_by_frame events t :
  by_frame (fold_left tally_step events t) =
  fold_left (fun c k => incr N.eqb k c) (List.map frame events) (by_frame t).
Proof.
  revert t. induction events as [|e events IH]; intros t; simpl; [reflexivity|].
  now rewrite IH.
Qed.

Lemma events_by_component_log_keys events :
  events_by_component_log events =
  most_common (count_keys str_eqb (List.map file events)).
Proof.
  unfold events_by_component_log, tally_events. now rewrite tally_by_file.
Qed.

Lemma top_frames_by_event_count_keys events :
  top_frames_by_event_count events =
  most_common_n 10 (count_keys N.eqb (List.map frame events)).
Proof.
  unfold top_frames_by_event_count, tally_events. now rewrite tally_by_frame.
Qed.

(** C4. The per-source and the per-frame count lists are in descending
    order of count; rows of equal count stand in the order in which their
    source names, or frames, were first met while counting; and the per-frame
    list has at most 10 rows. *)
Theorem count_lists_ordered : forall events,
  descending (events_by_component_log events) /\
  ties_by_first_seen (List.map file events) (events_by_component_log events) /\
  descending (top_frames_by_event_count events) /\
  ties_by_first_seen (List.map frame events) (top_frames_by_event_count events) /\
  (length (top_frames_by_event_count events) <= 10)%nat.
Proof.
  intros events.
  rewrite events_by_component_log_keys, top_frames_by_event_count_keys.
  destruct (@most_common_ordered str str_eqb str_eqb_eq (List.map file events) 0)
    as (H1 & H2 & _).
  destruct (@most_common_ordered N N.eqb N.eqb_eq (List.map frame events) 10)
    as (_ & _ & H3 & H4 & H5).
  auto.
Qed.

(** Reading the lines of a file gives the records of the lines when none is
    overlong, and raises [ValueError] when one is. *)
Lemma read_events_cases name raws events :
  (Forall (fun raw => overlong raw = false) raws /\
   read_events name raws events =
   Ok (events ++ flat_map (line_events name) raws)) \/
  (Exists (fun raw => overlong raw = true) raws /\
   read_events name raws events = Raise ValueError).
Proof.
  revert events. induction raws as [|raw raws IH]; intros events.
  - left. split; [constructor | simpl; now rewrite app_nil_r].
  - cbn [read_events flat_map].
    destruct (parse_line_overlong name raw) as [Ht Hf].
    destruct (overlong raw) eqn:O.
    + right. split; [now apply Exists_cons_hd|].
      now rewrite (Ht eq_refl).
    + destruct (Hf eq_refl) as [r E]. unfold line_events at 1. rewrite E.
      cbn [bind].
      destruct (IH (match r with Some e => events ++ [e] | None => events end))
        as [[HF E'] | [HE E']]; rewrite E'.
      * left. split; [now constructor|].
        destruct r; [now rewrite <- app_assoc | reflexivity].
      * right. split; [now apply Exists_cons_tl | reflexivity].
Qed.

Lemma overlong_Forall_Exists raws :
  Forall (fun raw => overlong raw = false) raws ->
  Exists (fun raw => overlong raw = true) raws -> False.
Proof.
  intros HF HE. apply Exists_exists in HE. destruct HE as (raw & Hin & H).
  rewrite Forall_forall in HF. rewrite (HF raw Hin) in H. discriminate.
Qed.

Lemma read_events_ok name raws events :
  Forall (fun raw => overlong raw = false) raws ->
  read_events name raws events =
  Ok (events ++ flat_map (line_events name) raws).
Proof.
  intros HF.
  destruct (read_events_cases name raws events) as [[_ E] | [HE _]];
    [exact E | elim (overlong_Forall_Exists HF HE)].
Qed.

Lemma line_events_length name raws :
  Forall (fun raw => overlong raw = false) raws ->
  length (flat_map (line_events name) raws) =
  length (filter matches_grammar raws).
Proof.
  induction 1 as [|raw raws Hraw _ IH]; simpl; [reflexivity|].
  rewrite length_app, IH. unfold line_events, matches_grammar.
  unfold overlong in Hraw.
  destruct (parse_line_cases name raw)
    as [[Eg E] | [(g & mono & fr & td & Eg & _ & _ & _ & E) | (g & Eg & Ho & _)]].
  - rewrite E, Eg. reflexivity.
  - rewrite E, Eg. reflexivity.
  - rewrite Eg in Hraw. congruence.
Qed.

Lemma ingest_length log_files events all :
  ingest log_files events = Ok all ->
  length all = (length events + matching_line_count log_files)%nat.
Proof.
  revert events. induction log_files as [|[name n] rest IH]; intros events; simpl.
  - intros H. inversion H. lia.
  - unfold parse_log_file, matching_lines. simpl.
    destruct n as [raws|entries|why]; simpl; try discriminate.
    destruct (read_events_cases name raws []) as [[HF E] | [_ E]];
      rewrite E; simpl; [|discriminate].
    intros H. apply IH in H.
    rewrite H, length_app, (line_events_length name HF). lia.
Qed.

(** C2. The reported [total_events] is the sum of the counts listed under
    [events_by_component_log], and it is the number of lines of the ingested
    log files that matched the line grammar. *)
Theorem total_events_is_sum_and_line_count : forall log_files events,
  merged_events log_files = Ok events ->
  total_events events = sum_counts (events_by_component_log events) /\
  total_events events = N.of_nat (matching_line_count log_files) /\
  exists rest,
    summarize events =
    (codes "total_events=" ++ str_of_int (total_events events)) ::
    codes "events_by_component_log:" ::
    List.map file_row (events_by_component_log events) ++ rest.
Proof.
  intros log_files events H. unfold merged_events in H.
  destruct (ingest log_files []) as [all|x] eqn:E; simpl in H; [|discriminate].
  inversion H; subst events. clear H.
  split; [|split].
  - rewrite events_by_component_log_keys, sum_counts_most_common.
    rewrite (sum_counts_count_keys str_eqb), length_map. reflexivity.
  - unfold total_events. f_equal.
    rewrite <- (Permutation_length (sort_events_perm all)).
    now rewrite (ingest_length _ _ E).
  - eexists. unfold summarize. simpl. reflexivity.
Qed.

Lemma total_events_is_sum_and_line_count_witness :
  total_events scenario6_events = sum_counts (events_by_component_log scenario6_events) /\
  total_events scenario6_events = N.of_nat (matching_line_count scenario6) /\
  exists rest,
    summarize scenario6_events =
    (codes "total_events=" ++ str_of_int (total_events scenario6_events)) ::
    codes "events_by_component_log:" ::
    List.map file_row (events_by_component_log scenario6_events) ++ rest.
Proof.
  apply (@total_events_is_sum_and_line_count scenario6 scenario6_events).
  reflexivity.
Defined.

(** ** Scenarios of the specification *)

Example parse_line_hello :
  parse_line (codes "a.log") (codes "[t0] [mono_ms=100] [frame=1] [tid=5] hello")
  = Ok (Some {| file := codes "a.log"; ts := codes "t0"; mono_ms := 100;
                frame := 1; tid := 5; msg := codes "hello" |}).
Proof. reflexivity. Qed.

(** Scenario 1: two lines of one file, the later line first in merge order. *)
Example main_scenario1 :
  main (codes "logs") (Some scenario1) =
  Ok {| exit_code := 0;
        stdout := [ codes "total_events=2";
                    codes "events_by_component_log:";
                    codes "  engine.log: 2";
                    codes "top_frames_by_event_count:";
                    codes "  frame=2 events=1";
                    codes "  frame=1 events=1";
                    codes "anomaly_events:";
                    codes "  ts=t0 frame=2 file=engine.log msg=anomaly_detector fired" ];
        stderr := [] |}.
Proof. vm_compute. reflexivity. Qed.

(** The blanks between the groups are not kept either: a line with a tab
    after the timestamp matches, and its fields written back are not its
    prefix. *)
Example reserialize_tab :
  exists e,
    parse_line (codes "a.log")
      (codes "[t0]" ++ [9] ++ codes "[mono_ms=7] [frame=1] [tid=5] hello")
    = Ok (Some e) /\
    starts_with (bracketed_prefix e)
      (codes "[t0]" ++ [9] ++ codes "[mono_ms=7] [frame=1] [tid=5] hello") = false.
Proof. eexists. split; reflexivity. Qed.

(** Digits of other scripts count as digits: Arabic-Indic three, then 1. *)
Example int_other_script : int [1635; 49] = Ok 31.
Proof. reflexivity. Qed.

(** Scenario 2: two files, three matching lines and one line of noise each. *)
Example main_scenario2 :
  main (codes "logs")
    (Some (Dir [ (codes "render.log",
                  File [ codes "[t] [mono_ms=3] [frame=1] [tid=1] a" ++ [LF];
                         codes "garbage" ++ [LF];
                         codes "[t] [mono_ms=4] [frame=1] [tid=1] b" ++ [LF];
                         codes "[t] [mono_ms=9] [frame=2] [tid=1] c" ++ [LF] ]);
                 (codes "audio.log",
                  File [ codes "[t] [mono_ms=1] [frame=1] [tid=2] d" ++ [LF];
                         codes "[t] [frame=1] [mono_ms=2] [tid=2] reordered" ++ [LF];
                         codes "[t] [mono_ms=5] [frame=2] [tid=2] e" ++ [LF];
                         codes "[t] [mono_ms=6] [frame=2] [tid=2] f" ++ [LF] ]) ])) =
  Ok {| exit_code := 0;
        stdout := [ codes "total_events=6";
                    codes "events_by_component_log:";
                    codes "  audio.log: 3";
                    codes "  render.log: 3";
                    codes "top_frames_by_event_count:";
                    codes "  frame=1 events=3";
                    codes "  frame=2 events=3";
                    codes "anomaly_events:";
                    codes "  (none)" ];
        stderr := [] |}.
Proof. vm_compute. reflexivity. Qed.

(** Scenario 5: of 60 anomalies the last 50 in merge order are listed. *)
Example anomaly_events_scenario5 :
  let stalls :=
    List.map (fun i => {| file := codes "a.log"; ts := codes "t";
                          mono_ms := N.of_nat i; frame := 0; tid := 0;
                          msg := codes "stall_warning" |}) (seq 0 60) in
  anomaly_events stalls = List.map anomaly_row (skipn 10 stalls).
Proof. vm_compute. reflexivity. Qed.

(** Rows of equal count follow the order of first insertion, not the
    alphabet: [b.log] is met first. *)
Example events_by_component_log_ties :
  events_by_component_log
    [ {| file := codes "b.log"; ts := codes "t"; mono_ms := 1; frame := 0;
         tid := 0; msg := [] |};
      {| file := codes "a.log"; ts := codes "t"; mono_ms := 2; frame := 0;
         tid := 0; msg := [] |} ] =
  [ (codes "b.log", 1); (codes "a.log", 1) ].
Proof. reflexivity. Qed.

(** A run that ends with exit code 0 printed the summary of the merged
    sequence of the log files found. *)
Lemma main_reports_merged trace_dir target r :
  main trace_dir target = Ok r -> exit_code r = 0 ->
  exists entries events,
    target = Some (Dir entries) /\
    merged_events (sorted_paths (glob_log entries)) = Ok events /\
    stdout r = summarize events /\ stderr r = [].
Proof.
  unfold main. destruct target as [[raws|entries|why]|];
    try (intros H; inversion H; subst r; discriminate).
  destruct (sorted_paths (glob_log entries)) as [|p l] eqn:E.
  - intros H; inversion H; subst r; discriminate.
  - destruct (merged_events (p :: l)) as [events|x] eqn:M; simpl; [|discriminate].
    intros H _. inversion H; subst r. simpl.
    exists entries, events. rewrite E. auto.
Qed.

(** * Further properties of the parser, the merge and the report *)

(** ** Lines *)

Lemma rstrip_newline_snoc s : rstrip_newline (s ++ [LF]) = rstrip_newline s.
Proof.
  induction s as [|c s IH]; [reflexivity|].
  cbn [app rstrip_newline]. now rewrite IH.
Qed.

Lemma rstrip_newline_feeds s k : rstrip_newline (s ++ repeat LF k) = rstrip_newline s.
Proof.
  revert s. induction k as [|k IH]; intros s; simpl.
  - now rewrite app_nil_r.
  - change (s ++ LF :: repeat LF k) with (s ++ [LF] ++ repeat LF k).
    now rewrite app_assoc, IH, rstrip_newline_snoc.
Qed.

Lemma rstrip_newline_none s :
  forallb not_newline s = true -> rstrip_newline s = s.
Proof.
  induction s as [|c s IH]; simpl; [reflexivity|].
  intros H. apply andb_true_iff in H. destruct H as [Hc Hs].
  rewrite IH by assumption. destruct s; [|reflexivity].
  unfold not_newline in Hc. apply negb_true_iff in Hc. now rewrite Hc.
Qed.

(** The message group starts where the blanks stop. *)
Lemma LINE_RE_match_message_start line g :
  LINE_RE_match line = Some g -> no_leading_blank (group_msg g).
Proof.
  unfold LINE_RE_match.
  destruct (lit (codes "[") line) as [s0|]; [cbn [obind fst snd]|discriminate].
  destruct (many1 not_close s0) as [[t s1]|]; [cbn [obind fst snd]|discriminate].
  destruct (lit (codes "]") s1) as [s2|]; [cbn [obind fst snd]|discriminate].
  destruct (numeric_group "[mono_ms=" s2) as [[m s3]|]; [cbn [obind fst snd]|discriminate].
  destruct (numeric_group "[frame=" s3) as [[f s4]|]; [cbn [obind fst snd]|discriminate].
  destruct (numeric_group "[tid=" s4) as [[d s5]|]; [cbn [obind fst snd]|discriminate].
  destruct (many1 is_space s5) as [[w4 s6]|] eqn:Ew; [cbn [obind fst snd]|discriminate].
  destruct (span not_newline s6) as [text rest] eqn:Es.
  destruct (at_end rest); [|discriminate].
  intros H. inversion H; subst g; cbn [group_msg]. clear H.
  apply many1_sound in Ew. destruct Ew as (_ & _ & _ & Hstop).
  destruct s6 as [|c s6]; simpl in Es.
  - inversion Es. exact I.
  - simpl in Hstop. destruct (not_newline c).
    + destruct (span not_newline s6). inversion Es. exact Hstop.
    + inversion Es. exact I.
Qed.

Lemma LINE_RE_match_bracket_groups t w1 m w2 f w3 d tail g :
  timestamp t -> blank w1 -> digits m -> blank w2 -> digits f ->
  blank w3 -> digits d ->
  LINE_RE_match (bracket_line t w1 m w2 f w3 d tail) = Some g ->
  group_ts g = t /\ group_mono g = m /\ group_frame g = f /\ group_tid g = d.
Proof.
  intros Ht Hw1 Hm Hw2 Hf Hw3 Hd.
  rewrite LINE_RE_match_bracket_line by assumption.
  destruct (many1 is_space tail) as [w|]; cbn [obind]; [|discriminate].
  destruct (span not_newline (snd w)) as [text rest].
  destruct (at_end rest); [|discriminate].
  intros H. inversion H. simpl. auto.
Qed.

(** X1. A raw line gives a record exactly when, its trailing line feeds
    stripped, it reads as the pattern says (the four bracket groups in order,
    one or more blanks after each, then a message without line feed) and none
    of its three numeric fields has more than 4300 digits. *)
Theorem parse_line_accepts_grammar : forall name raw,
  (exists e, parse_line name raw = Ok (Some e)) <->
  (exists t w1 m w2 f w3 d tail,
     timestamp t /\ blank w1 /\ digits m /\ blank w2 /\ digits f /\
     blank w3 /\ digits d /\ message_tail tail /\
     within_limit m /\ within_limit f /\ within_limit d /\
     rstrip_newline raw = bracket_line t w1 m w2 f w3 d tail).
Proof.
  intros name raw. split.
  - intros [e H].
    destruct (parse_line_cases name raw)
      as [[_ E] | [(g & mono & fr & td & Eg & Em & Ef & Ed & _) | (g & _ & _ & E)]];
      try (rewrite E in H; discriminate).
    destruct (LINE_RE_match_groups _ Eg)
      as (Ht & Hm & Hf & Hd & Hx & w1 & w2 & w3 & w4 & rest
            & Hw1 & Hw2 & Hw3 & Hw4 & Hr & Hline).
    exists (group_ts g), w1, (group_mono g), w2, (group_frame g), w3,
      (group_tid g), (w4 ++ group_msg g ++ rest).
    repeat (split; [assumption|]). split.
    { exists w4, (group_msg g), rest. repeat (split; [assumption|]).
      destruct rest as [|c [|c' rest]]; simpl in Hr; try discriminate; auto.
      apply N.eqb_eq in Hr. subst c. auto. }
    split; [now destruct (int_Ok_inv _ Em) as (_ & ? & _)|].
    split; [now destruct (int_Ok_inv _ Ef) as (_ & ? & _)|].
    split; [now destruct (int_Ok_inv _ Ed) as (_ & ? & _)|].
    exact Hline.
  - intros (t & w1 & m & w2 & f & w3 & d & tail
              & Ht & Hw1 & Hm & Hw2 & Hf & Hw3 & Hd & Htail & Lm & Lf & Ld & Hline).
    destruct (parse_line_cases name raw)
      as [[Eg _] | [(g & mono & fr & td & _ & _ & _ & _ & E) | (g & Eg & Ho & _)]].
    + exfalso. revert Eg. apply LINE_RE_match_grammar.
      exists t, w1, m, w2, f, w3, d, tail. auto 10.
    + eauto.
    + exfalso. rewrite Hline in Eg.
      destruct (LINE_RE_match_bracket_groups tail Ht Hw1 Hm Hw2 Hf Hw3 Hd Eg)
        as (_ & Gm & Gf & Gd).
      unfold field_overlong in Ho. rewrite Gm, Gf, Gd in Ho.
      apply exceeds_within in Lm, Lf, Ld. rewrite Lm, Lf, Ld in Ho. discriminate.
Qed.

(** X2. Line feeds at the end of a raw line do not change what it parses
    to: the last line of a file reads the same with or without its
    terminator. *)
Theorem parse_line_trailing_feeds : forall name raw k,
  parse_line name (raw ++ repeat LF k) = parse_line name raw.
Proof.
  intros name raw k. unfold parse_line. now rewrite rstrip_newline_feeds.
Qed.

(** X3. In every record the parser gives, the source name is the name of the
    file, the timestamp is not empty and holds no closing bracket, and the
    message holds no line feed and does not start with whitespace: the blanks
    in front of a message are dropped. *)
Theorem parse_line_record_fields : forall name raw e,
  parse_line name raw = Ok (Some e) ->
  file e = name /\ timestamp (ts e) /\
  forallb not_newline (msg e) = true /\ no_leading_blank (msg e).
Proof.
  intros name raw e H.
  destruct (parse_line_cases name raw)
    as [[_ E] | [(g & mono & fr & td & Eg & _ & _ & _ & E) | (g & _ & _ & E)]];
    rewrite E in H; try discriminate.
  inversion H; subst e; simpl. clear H.
  destruct (LINE_RE_match_groups _ Eg) as (Ht & _ & _ & _ & Hm & _).
  split; [reflexivity|]. split; [assumption|]. split; [assumption|].
  now apply LINE_RE_match_message_start with (line := rstrip_newline raw).
Qed.

Lemma parse_line_record_fields_witness :
  codes "a.log" = codes "a.log" /\ timestamp (codes "t0") /\
  forallb not_newline (codes "hello  world") = true /\
  no_leading_blank (codes "hello  world").
Proof.
  apply (@parse_line_record_fields (codes "a.log")
           (codes "[t0] [mono_ms=100] [frame=1] [tid=5]    hello  world" ++ [LF])
           {| file := codes "a.log"; ts := codes "t0"; mono_ms := 100;
              frame := 1; tid := 5; msg := codes "hello  world" |}).
  reflexivity.
Defined.

(** X4. Which blanks stand between the bracket groups, and how many, does not
    matter: the line gives the same result as with one space each. *)
Theorem parse_line_any_blanks : forall name t w1 m w2 f w3 d tail,
  timestamp t -> blank w1 -> digits m -> blank w2 -> digits f ->
  blank w3 -> digits d ->
  parse_line name (bracket_line t w1 m w2 f w3 d tail) =
  parse_line name (bracket_line t (codes " ") m (codes " ") f (codes " ") d tail).
Proof.
  intros name t w1 m w2 f w3 d tail Ht Hw1 Hm Hw2 Hf Hw3 Hd.
  assert (Hb : blank (codes " ")) by (split; [discriminate | reflexivity]).
  now rewrite !parse_line_bracket_line by assumption.
Qed.

Lemma parse_line_any_blanks_witness :
  parse_line (codes "a.log")
    (bracket_line (codes "t0") [9; 32] (codes "7") [160] (codes "1")
       (codes "   ") (codes "5") (codes " hello")) =
  parse_line (codes "a.log")
    (bracket_line (codes "t0") (codes " ") (codes "7") (codes " ") (codes "1")
       (codes " ") (codes "5") (codes " hello")).
Proof.
  apply parse_line_any_blanks; split; first [discriminate | reflexivity].
Defined.

(** ** Writing a record and reading it back *)

Lemma text_of_uint_ascii d : forallb ascii_digit (text_of_uint d) = true.
Proof. induction d; simpl; auto. Qed.

Lemma uint_of_text_of_uint d : uint_of_text (text_of_uint d) = d.
Proof. induction d; simpl; try rewrite IHd; reflexivity. Qed.

Lemma str_of_int_nonempty n : str_of_int n <> [].
Proof.
  unfold str_of_int. destruct n as [|p]; [discriminate|]. simpl.
  pose proof (DecimalPos.Unsigned.to_uint_nonnil p) as H.
  destruct (Pos.to_uint p); simpl; congruence.
Qed.

(** [int(str(n))] is [n], for [n] of at most 4300 digits. *)
Lemma int_str_of_int n : within_limit (str_of_int n) -> int (str_of_int n) = Ok n.
Proof.
  intros Hw. rewrite int_ascii.
  - unfold str_of_int. rewrite uint_of_text_of_uint.
    now rewrite DecimalN.Unsigned.of_to.
  - apply str_of_int_nonempty.
  - exact Hw.
  - apply text_of_uint_ascii.
Qed.

Lemma str_of_int_digits n : digits (str_of_int n).
Proof.
  split; [apply str_of_int_nonempty|].
  apply ascii_digits_digits, text_of_uint_ascii.
Qed.

Lemma message_of_message text :
  forallb not_newline text = true -> no_leading_blank text ->
  message_of (codes " " ++ text) = Some text.
Proof.
  intros Hn Hb. unfold message_of.
  rewrite many1_app; [| discriminate | reflexivity | exact Hb].
  cbn [obind snd]. rewrite <- (app_nil_r text) at 1.
  rewrite span_app; [reflexivity | assumption | exact I].
Qed.

(** X5. Writing the fields of a record in the bracketed form, then a space
    and the message, gives a line that parses back to the very same record,
    provided the timestamp is not empty and has no closing bracket, the
    message has no line feed and no whitespace in front, and each of the three
    numbers is written with at most 4300 digits. *)
Theorem write_then_parse : forall e,
  timestamp (ts e) ->
  forallb not_newline (msg e) = true ->
  no_leading_blank (msg e) ->
  within_limit (str_of_int (mono_ms e)) ->
  within_limit (str_of_int (frame e)) ->
  within_limit (str_of_int (tid e)) ->
  parse_line (file e) (bracketed_prefix e ++ codes " " ++ msg e) = Ok (Some e).
Proof.
  intros e Ht Hn Hb Lm Lf Ld.
  assert (Hsp : blank (codes " ")) by (split; [discriminate | reflexivity]).
  assert (E : bracketed_prefix e ++ codes " " ++ msg e =
              bracket_line (ts e) (codes " ") (str_of_int (mono_ms e)) (codes " ")
                (str_of_int (frame e)) (codes " ") (str_of_int (tid e))
                (codes " " ++ msg e)).
  { unfold bracketed_prefix. rewrite !bracket_line_head, <- app_assoc. reflexivity. }
  rewrite E, parse_line_bracket_line
    by (assumption || apply str_of_int_digits).
  rewrite rstrip_newline_none by (simpl; exact Hn).
  rewrite message_of_message by assumption.
  rewrite !int_str_of_int by assumption. destruct e; reflexivity.
Qed.

Lemma write_then_parse_witness :
  parse_line (codes "a.log")
    (bracketed_prefix
       {| file := codes "a.log"; ts := codes "t0"; mono_ms := 100; frame := 1;
          tid := 5; msg := codes "stall_warning [x=1]" |} ++
     codes " " ++ codes "stall_warning [x=1]") =
  Ok (Some {| file := codes "a.log"; ts := codes "t0"; mono_ms := 100;
              frame := 1; tid := 5; msg := codes "stall_warning [x=1]" |}).
Proof.
  apply (@write_then_parse
           {| file := codes "a.log"; ts := codes "t0"; mono_ms := 100; frame := 1;
              tid := 5; msg := codes "stall_warning [x=1]" |});
    first [ reflexivity | discriminate | split; [discriminate | reflexivity] ].
Defined.

(** ** Files *)

Lemma line_events_matching name raws :
  Forall (fun raw => overlong raw = false) raws ->
  Forall2 (fun raw e => parse_line name raw = Ok (Some e))
    (filter matches_grammar raws) (flat_map (line_events name) raws).
Proof.
  induction 1 as [|raw raws Hraw _ IH]; simpl; [constructor|].
  unfold line_events at 1. unfold matches_grammar at 1.
  unfold overlong in Hraw.
  destruct (parse_line_cases name raw)
    as [[Eg E] | [(g & mono & fr & td & Eg & _ & _ & _ & E) | (g & Eg & Ho & _)]].
  - rewrite E, Eg. exact IH.
  - rewrite E, Eg. now constructor.
  - rewrite Eg in Hraw. congruence.
Qed.

Lemma line_events_file name raws :
  Forall (fun e => file e = name) (flat_map (line_events name) raws).
Proof.
  apply Forall_forall. intros e He. apply in_flat_map in He.
  destruct He as (raw & _ & He). unfold line_events in He.
  destruct (parse_line_cases name raw)
    as [[_ E] | [(g & mono & fr & td & _ & _ & _ & _ & E) | (g & _ & _ & E)]];
    rewrite E in He; simpl in He; try contradiction.
  destruct He as [<-|[]]. reflexivity.
Qed.

(** X6. Reading a file that opens has two outcomes.  When none of its lines
    matches the grammar with a numeric field of more than 4300 digits, it
    gives one record for each line that matches, in the order of the lines,
    each the record of its line and each with the name of the file as its
    source name; the other lines leave no trace.  When one of its lines does,
    it raises [ValueError] and gives no record at all. *)
Theorem parse_log_file_reads_lines : forall name raws,
  (Forall (fun raw => overlong raw = false) raws /\
   exists events,
     parse_log_file (name, File raws) = Ok events /\
     Forall2 (fun raw e => parse_line name raw = Ok (Some e))
       (filter matches_grammar raws) events /\
     Forall (fun e => file e = name) events) \/
  (Exists (fun raw => overlong raw = true) raws /\
   parse_log_file (name, File raws) = Raise ValueError).
Proof.
  intros name raws. unfold parse_log_file. simpl.
  destruct (read_events_cases name raws []) as [[HF E] | [HE E]]; rewrite E.
  - left. split; [assumption|].
    exists (flat_map (line_events name) raws).
    split; [reflexivity|]. split.
    + now apply line_events_matching.
    + apply line_events_file.
  - right. now split.
Qed.

(** ** The merge *)

Lemma ingestible_fails n x : ingestible n -> fails_with n x -> False.
Proof.
  destruct n as [raws|entries|why]; simpl; try contradiction.
  intros HF [_ HE]. exact (overlong_Forall_Exists HF HE).
Qed.

Lemma fails_with_unique n x y : fails_with n x -> fails_with n y -> x = y.
Proof.
  destruct n as [raws|entries|why]; simpl.
  - intros [-> _] [-> _]. reflexivity.
  - congruence.
  - congruence.
Qed.

(** Reading one entry gives its records when it can be read to its end, and
    raises otherwise. *)
Lemma parse_log_file_cases p :
  (ingestible (snd p) /\ parse_log_file p = Ok (file_events p)) \/
  (exists x, fails_with (snd p) x /\ parse_log_file p = Raise x).
Proof.
  destruct p as [name n]. unfold parse_log_file, file_events. simpl.
  destruct n as [raws|entries|why]; simpl.
  - destruct (read_events_cases name raws []) as [[HF E] | [HE E]].
    + left. split; assumption.
    + right. exists ValueError. repeat split; assumption.
  - right. now exists IsADirectoryError.
  - right. now exists (refusal_error why).
Qed.

Lemma ingest_files log_files events :
  Forall (fun p => ingestible (snd p)) log_files ->
  ingest log_files events = Ok (events ++ flat_map file_events log_files).
Proof.
  intros H. revert events.
  induction H as [|p rest Hp _ IH]; intros events; cbn [ingest flat_map].
  - now rewrite app_nil_r.
  - destruct (parse_log_file_cases p) as [[_ E] | (x & Hx & _)].
    + rewrite E. cbn [bind]. rewrite IH. now rewrite <- app_assoc.
    + elim (@ingestible_fails _ _ Hp Hx).
Qed.

(** The loop over the log files ends well only if each of them can be read to
    its end. *)
Lemma ingest_cases log_files events :
  (Forall (fun p => ingestible (snd p)) log_files /\
   ingest log_files events = Ok (events ++ flat_map file_events log_files)) \/
  (exists x, ingest log_files events = Raise x).
Proof.
  revert events. induction log_files as [|p rest IH]; intros events.
  - left. split; [constructor | simpl; now rewrite app_nil_r].
  - cbn [ingest flat_map].
    destruct (parse_log_file_cases p) as [[Hp E] | (x & Hx & E)];
      rewrite E; cbn [bind].
    + destruct (IH (events ++ file_events p)) as [[Hf E'] | [x E']]; rewrite E'.
      * left. split; [now constructor | now rewrite <- app_assoc].
      * right. now exists x.
    + right. now exists x.
Qed.

(** The loop raises [x] exactly when the first of the log files that cannot
    be read to its end fails with [x]. *)
Lemma ingest_raises log_files events x :
  ingest log_files events = Raise x <->
  exists before p after,
    log_files = before ++ p :: after /\
    Forall (fun q => ingestible (snd q)) before /\
    fails_with (snd p) x.
Proof.
  revert events. induction log_files as [|p rest IH]; intros events.
  - split; [discriminate|]. intros (before & q & after & E & _).
    destruct before; discriminate.
  - cbn [ingest].
    destruct (parse_log_file_cases p) as [[Hp E] | (x' & Hx & E)];
      rewrite E; cbn [bind].
    + rewrite IH. split.
      * intros (before & q & after & -> & HF & Hq).
        exists (p :: before), q, after.
        split; [reflexivity|]. split; [now constructor | assumption].
      * intros (before & q & after & El & HF & Hq).
        destruct before as [|p' before]; simpl in El; inversion El; subst.
        -- elim (@ingestible_fails _ _ Hp Hq).
        -- inversion HF; subst. exists before, q, after. auto.
    + split.
      * intros H. inversion H; subst.
        exists [], p, rest. split; [reflexivity|]. split; [constructor | assumption].
      * intros (before & q & after & El & HF & Hq).
        destruct before as [|p' before]; simpl in El; inversion El; subst.
        -- f_equal. exact (@fails_with_unique _ _ _ Hx Hq).
        -- inversion HF; subst. elim (@ingestible_fails _ _ H1 Hx).
Qed.

(** X7. The merge neither loses nor invents a record: the merged sequence is
    a rearrangement of the records of all the log files. *)
Theorem merged_events_rearranges : forall log_files events,
  merged_events log_files = Ok events ->
  Permutation (flat_map file_events log_files) events.
Proof.
  intros log_files events H. unfold merged_events in H.
  destruct (ingest_cases log_files []) as [[_ E] | [x E]];
    rewrite E in H; simpl in H; [|discriminate].
  inversion H; subst events. apply sort_events_perm.
Qed.

Lemma merged_events_rearranges_witness :
  Permutation (flat_map file_events scenario6) scenario6_events.
Proof.
  apply (@merged_events_rearranges scenario6 scenario6_events). reflexivity.
Defined.

Lemma str_le_ltb a b : str_le a b -> str_ltb b a = false.
Proof.
  induction 1 as [b | x a y b Hlt | x a b _ IH]; simpl.
  - now destruct b.
  - bool_to_prop. split; [lia | left; lia].
  - bool_to_prop. split; [lia | now right].
Qed.

Lemma key_le_ltb a b : key_le a b -> key_ltb b a = false.
Proof.
  unfold key_le, key_ltb. intros H. bool_to_prop.
  destruct H as [H|[H1 [H|[H2 H3]]]].
  - split; [lia | left; lia].
  - split; [lia | right; split; [lia | left; lia]].
  - split; [lia | right; split; [lia | right; now apply str_le_ltb]].
Qed.

(** A stable sort keeps, for every class of elements none of which goes
    before another, the elements of the class in the order they had. *)
Section StableSortClasses.
Variable A : Type.
Variable ltb : A -> A -> bool.
Variable same : A -> bool.
Hypothesis same_not_ltb :
  forall x y, same x = true -> same y = true -> ltb x y = false.

Lemma insert_sorted_class x l :
  filter same (insert_sorted ltb x l) = filter same (x :: l).
Proof.
  induction l as [|y l IH]; [reflexivity|].
  cbn [insert_sorted]. destruct (ltb y x) eqn:E; [|reflexivity].
  cbn [filter] in *. rewrite IH.
  destruct (same y) eqn:Ey, (same x) eqn:Ex; try reflexivity.
  rewrite (same_not_ltb Ey Ex) in E. discriminate.
Qed.

Lemma stable_sort_class l : filter same (stable_sort ltb l) = filter same l.
Proof.
  induction l as [|x l IH]; [reflexivity|].
  cbn [stable_sort]. rewrite insert_sorted_class. cbn [filter]. now rewrite IH.
Qed.
End StableSortClasses.

Lemma str_ltb_irrefl a : str_ltb a a = false.
Proof.
  destruct (str_ltb a a) eqn:E; [|reflexivity].
  pose proof (str_ltb_asym _ _ E). congruence.
Qed.

Lemma key_eqb_not_ltb k x y :
  key_eqb k x = true -> key_eqb k y = true -> key_ltb x y = false.
Proof.
  unfold key_eqb, key_ltb. intros Hx Hy.
  apply andb_true_iff in Hx. destruct Hx as [Hx Hx3].
  apply andb_true_iff in Hx. destruct Hx as [Hx1 Hx2].
  apply andb_true_iff in Hy. destruct Hy as [Hy Hy3].
  apply andb_true_iff in Hy. destruct Hy as [Hy1 Hy2].
  apply N.eqb_eq in Hx1, Hx2, Hy1, Hy2.
  apply str_eqb_eq in Hx3, Hy3.
  rewrite <- Hx1, <- Hx2, <- Hx3, <- Hy1, <- Hy2, <- Hy3.
  rewrite !N.ltb_irrefl, !N.eqb_refl, str_ltb_irrefl. reflexivity.
Qed.

(** X8. The sort of the merge is stable: the records that share a sort key
    [(mono_ms, frame, file)] stand in the merged sequence in the order in
    which they were read (the log files in their order, each file from its
    first line on), each as many times as it was read.  [k] is any record
    that has the key. *)
Theorem merged_events_stable : forall log_files events k,
  merged_events log_files = Ok events ->
  filter (key_eqb k) events =
  filter (key_eqb k) (flat_map file_events log_files).
Proof.
  intros log_files events k H. unfold merged_events in H.
  destruct (ingest_cases log_files []) as [[_ Ei] | [x Ei]];
    rewrite Ei in H; simpl in H; [|discriminate].
  inversion H as [Hs]. unfold sort_events.
  apply stable_sort_class. intros x y. apply key_eqb_not_ltb.
Qed.

Lemma merged_events_stable_witness :
  filter
    (key_eqb {| file := codes "a.log"; ts := []; mono_ms := 7; frame := 3;
                tid := 0; msg := [] |})
    [ {| file := codes "a.log"; ts := codes "t1"; mono_ms := 5; frame := 9;
         tid := 4; msg := codes "early" |};
      {| file := codes "a.log"; ts := codes "t0"; mono_ms := 7; frame := 3;
         tid := 1; msg := codes "x" |};
      {| file := codes "a.log"; ts := codes "t0"; mono_ms := 7; frame := 3;
         tid := 2; msg := codes "y" |};
      {| file := codes "a.log"; ts := codes "t0"; mono_ms := 7; frame := 3;
         tid := 1; msg := codes "x" |} ] =
  filter
    (key_eqb {| file := codes "a.log"; ts := []; mono_ms := 7; frame := 3;
                tid := 0; msg := [] |})
    (flat_map file_events
       [(codes "a.log",
         File [ codes "[t0] [mono_ms=7] [frame=3] [tid=1] x" ++ [LF];
                codes "[t0] [mono_ms=7] [frame=3] [tid=2] y" ++ [LF];
                codes "[t1] [mono_ms=5] [frame=9] [tid=4] early" ++ [LF];
                codes "[t0] [mono_ms=7] [frame=3] [tid=1] x" ++ [LF] ])]).
Proof.
  apply (@merged_events_stable
           [(codes "a.log",
             File [ codes "[t0] [mono_ms=7] [frame=3] [tid=1] x" ++ [LF];
                    codes "[t0] [mono_ms=7] [frame=3] [tid=2] y" ++ [LF];
                    codes "[t1] [mono_ms=5] [frame=9] [tid=4] early" ++ [LF];
                    codes "[t0] [mono_ms=7] [frame=3] [tid=1] x" ++ [LF] ])]).
  reflexivity.
Defined.

(** ** Runs *)

Lemma glob_log_In p entries :
  In p (glob_log entries) <-> In p entries /\ log_entry p.
Proof. unfold glob_log, log_entry. apply filter_In. Qed.

Lemma sorted_paths_In p paths : In p (sorted_paths paths) <-> In p paths.
Proof. unfold sorted_paths. apply stable_sort_In. Qed.

(** The three ways a run on a directory ends. *)
Lemma main_dir_cases trace_dir entries :
  (glob_log entries = [] /\
   main trace_dir (Some (Dir entries)) =
   Ok {| exit_code := 2; stdout := [];
         stderr := [codes "error: no .log files found in " ++ trace_dir] |}) \/
  (glob_log entries <> [] /\
   (forall p, In p (glob_log entries) -> ingestible (snd p)) /\
   main trace_dir (Some (Dir entries)) =
   Ok {| exit_code := 0;
         stdout := summarize
                     (sort_events
                        (flat_map file_events (sorted_paths (glob_log entries))));
         stderr := [] |}) \/
  (exists x,
     ingest (sorted_paths (glob_log entries)) [] = Raise x /\
     main trace_dir (Some (Dir entries)) = Raise x).
Proof.
  unfold main.
  destruct (sorted_paths (glob_log entries)) as [|p0 rest] eqn:El.
  - left. split; [|reflexivity].
    destruct (glob_log entries) as [|q l]; [reflexivity|].
    assert (Hq : In q (sorted_paths (q :: l))) by (apply sorted_paths_In; now left).
    rewrite El in Hq. contradiction.
  - right.
    assert (Hne : glob_log entries <> []).
    { intros Eg. rewrite Eg in El. discriminate. }
    unfold merged_events.
    destruct (ingest_cases (p0 :: rest) []) as [[Hf E] | [x E]];
      rewrite E; simpl.
    + left. split; [exact Hne|]. split; [|reflexivity].
      intros p Hp. rewrite Forall_forall in Hf. apply Hf.
      rewrite <- El. exact (proj2 (sorted_paths_In p _) Hp).
    + right. exists x. split; reflexivity.
Qed.

(** X9. A run ends with exit code 0 exactly when the path leads to a
    directory that has at least one entry named [*.log] and every entry so
    named can be read to its end: it is a file that opens, and none of its
    lines matches the grammar with a numeric field of more digits than [int]
    takes. *)
Theorem main_succeeds_iff : forall trace_dir target,
  (exists r, main trace_dir target = Ok r /\ exit_code r = 0) <->
  (exists entries,
     target = Some (Dir entries) /\
     (exists p, In p entries /\ log_entry p) /\
     (forall p, In p entries -> log_entry p -> ingestible (snd p))).
Proof.
  intros trace_dir target. split.
  - intros (r & H & Hr).
    destruct target as [[raws|entries|why]|];
      try (simpl in H; inversion H; subst r; discriminate).
    exists entries. split; [reflexivity|].
    destruct (main_dir_cases trace_dir entries)
      as [[_ E] | [(Hne & Hf & _) | (x & _ & E)]]; rewrite ?E in H.
    + inversion H; subst r; discriminate.
    + split.
      * destruct (glob_log entries) as [|p l] eqn:Eg; [congruence|].
        exists p. apply glob_log_In. rewrite Eg. now left.
      * intros p Hp Hl. apply Hf. now apply glob_log_In.
    + discriminate.
  - intros (entries & -> & (p & Hp & Hl) & Hf).
    destruct (main_dir_cases trace_dir entries)
      as [[Eg _] | [(_ & _ & E) | (x & Ei & _)]].
    + assert (H : In p (glob_log entries)) by now apply glob_log_In.
      rewrite Eg in H. contradiction.
    + eexists. split; [exact E | reflexivity].
    + apply (proj1 (ingest_raises _ _ _)) in Ei.
      destruct Ei as (before & q & after & El & _ & Hq).
      assert (Hin : In q (sorted_paths (glob_log entries))).
      { rewrite El. apply in_or_app. right. now left. }
      apply (proj1 (sorted_paths_In q _)) in Hin.
      apply glob_log_In in Hin. destruct Hin as [Hin Hl'].
      elim (@ingestible_fails _ _ (Hf q Hin Hl') Hq).
Qed.

(** X10. A run on a directory ends with the uncaught exception [x] exactly
    when, among the entries named [*.log] taken in the order of their names,
    the first that cannot be read to its end fails with [x]:
    [IsADirectoryError] for a directory, [FileNotFoundError],
    [PermissionError] or [OSError] for what [open] refuses, [ValueError] for
    a file with a line that matches the grammar with a numeric field of more
    digits than [int] takes. *)
Theorem main_raises_iff : forall trace_dir entries x,
  main trace_dir (Some (Dir entries)) = Raise x <->
  (exists before p after,
     sorted_paths (glob_log entries) = before ++ p :: after /\
     Forall (fun q => ingestible (snd q)) before /\
     fails_with (snd p) x).
Proof.
  intros trace_dir entries x. rewrite <- (ingest_raises _ [] x).
  destruct (main_dir_cases trace_dir entries)
    as [[Eg E] | [(_ & Hf & E) | (x' & Ei & E)]]; rewrite E.
  - unfold sorted_paths. rewrite Eg. simpl. split; discriminate.
  - rewrite ingest_files; [split; discriminate|].
    apply Forall_forall. intros p Hp. apply Hf.
    exact (proj1 (sorted_paths_In p _) Hp).
  - rewrite Ei. split; intros H; inversion H; reflexivity.
Qed.

(** ** The order in which the directory lists its entries *)

Lemma str_ltb_total a b :
  str_ltb a b = false -> str_ltb b a = false -> a = b.
Proof.
  revert b. induction a as [|x a IH]; intros [|y b]; simpl; try congruence.
  intros H1 H2. bool_to_prop.
  destruct H1 as [H1 H1'], H2 as [H2 H2'].
  assert (x = y) by lia. subst y. f_equal.
  apply IH; [destruct H1' | destruct H2']; congruence.
Qed.

(** Two lists in strictly ascending order with the same elements are equal. *)
Lemma strictly_sorted_unique (A : Type) (lt : A -> A -> Prop) (l1 l2 : list A) :
  (forall x y, lt x y -> lt y x -> False) ->
  ForallOrdPairs lt l1 -> ForallOrdPairs lt l2 ->
  Permutation l1 l2 -> l1 = l2.
Proof.
  intros Hasym. revert l2. induction l1 as [|x l1 IH]; intros l2 H1 H2 Hp.
  - apply Permutation_nil in Hp. now subst.
  - destruct l2 as [|y l2].
    + apply Permutation_sym, Permutation_nil in Hp. discriminate.
    + inversion H1 as [|? ? Hx H1']; subst. inversion H2 as [|? ? Hy H2']; subst.
      assert (Ex : In x (y :: l2)) by (eapply Permutation_in; [exact Hp | now left]).
      assert (Ey : In y (x :: l1))
        by (eapply Permutation_in; [apply Permutation_sym; exact Hp | now left]).
      assert (E : x = y).
      { destruct Ex as [->|Ex]; [reflexivity|].
        destruct Ey as [->|Ey]; [reflexivity|].
        rewrite Forall_forall in Hx, Hy.
        elim (Hasym x y); auto. }
      subst y. f_equal. apply IH; try assumption.
      now apply Permutation_cons_inv with x.
Qed.

Lemma filter_perm (A : Type) (f : A -> bool) (l l' : list A) :
  Permutation l l' -> Permutation (filter f l) (filter f l').
Proof.
  induction 1 as [|x l l' _ IH|x y l|l l' l'' _ IH1 _ IH2]; simpl.
  - constructor.
  - destruct (f x); [now constructor | assumption].
  - destruct (f x), (f y); try reflexivity. apply perm_swap.
  - now transitivity (filter f l').
Qed.

Lemma names_differ_filter (f : path -> bool) (l : list path) :
  NoDup (List.map path_name l) -> NoDup (List.map path_name (filter f l)).
Proof.
  induction l as [|p l IH]; simpl; intros H; [constructor|].
  inversion H as [|? ? Hp Hl]; subst.
  destruct (f p); simpl; [|now apply IH].
  constructor; [|now apply IH].
  intros Hin. apply Hp. apply in_map_iff in Hin.
  destruct Hin as (q & Eq & Hq). apply filter_In in Hq.
  apply in_map_iff. exists q. tauto.
Qed.

Lemma names_differ_ordpairs (l : list path) :
  NoDup (List.map path_name l) ->
  ForallOrdPairs (fun p q => path_name p <> path_name q) l.
Proof.
  induction l as [|p l IH]; simpl; intros H; constructor;
    inversion H as [|? ? Hp Hl]; subst; [|now apply IH].
  apply Forall_forall. intros q Hq E. apply Hp. rewrite E. now apply in_map.
Qed.

(** With distinct names the sorted paths are in strictly ascending order. *)
Lemma sorted_paths_strict (l : list path) :
  NoDup (List.map path_name l) ->
  ForallOrdPairs (fun p q => path_ltb p q = true) (sorted_paths l).
Proof.
  intros H. unfold sorted_paths.
  apply ordpairs_weaken
    with (R := sorted_stably path_ltb (fun p q => path_name p <> path_name q)).
  - intros p q [Hqp [Hpq|Hne]]; [assumption|].
    destruct (path_ltb p q) eqn:E; [reflexivity|].
    elim Hne. unfold path_ltb in *. now apply str_ltb_total.
  - apply stable_sort_stably.
    + intros x y. apply str_ltb_asym.
    + intros x y z. apply str_ltb_le_trans.
    + now apply names_differ_ordpairs.
Qed.

Lemma sorted_paths_listing (l l' : list path) :
  NoDup (List.map path_name l) -> Permutation l l' ->
  sorted_paths l = sorted_paths l'.
Proof.
  intros Hn Hp.
  assert (Hn' : NoDup (List.map path_name l')).
  { eapply Permutation_NoDup; [|exact Hn]. now apply Permutation_map. }
  apply strictly_sorted_unique with (lt := fun p q => path_ltb p q = true).
  - intros x y Hxy Hyx. unfold path_ltb in *.
    apply str_ltb_asym in Hxy. congruence.
  - now apply sorted_paths_strict.
  - now apply sorted_paths_strict.
  - unfold sorted_paths.
    rewrite <- (stable_sort_perm path_ltb l), <- (stable_sort_perm path_ltb l').
    exact Hp.
Qed.

(** X11. The outcome of a run does not depend on the order in which the
    directory lists its entries: two listings of the same entries, their
    names distinct, give the same exit code, the same report and the same
    failure. *)
Theorem main_ignores_listing_order : forall trace_dir entries entries',
  NoDup (List.map path_name entries) ->
  Permutation entries entries' ->
  main trace_dir (Some (Dir entries)) = main trace_dir (Some (Dir entries')).
Proof.
  intros trace_dir entries entries' Hn Hp. unfold main.
  rewrite (@sorted_paths_listing (glob_log entries) (glob_log entries')).
  - reflexivity.
  - now apply names_differ_filter.
  - now apply filter_perm.
Qed.

Lemma main_ignores_listing_order_witness :
  main (codes "logs")
    (Some (Dir [ (codes "b.log", File [codes "[t] [mono_ms=2] [frame=1] [tid=1] b" ++ [LF]]);
                 (codes "notes.txt", File []);
                 (codes "a.log", File [codes "[t] [mono_ms=2] [frame=1] [tid=1] a" ++ [LF]]) ])) =
  main (codes "logs")
    (Some (Dir [ (codes "a.log", File [codes "[t] [mono_ms=2] [frame=1] [tid=1] a" ++ [LF]]);
                 (codes "b.log", File [codes "[t] [mono_ms=2] [frame=1] [tid=1] b" ++ [LF]]);
                 (codes "notes.txt", File []) ])).
Proof.
  apply main_ignores_listing_order.
  - repeat constructor; simpl; intuition discriminate.
  - apply Permutation_sym.
    change (Permutation
      ([(codes "a.log", File [codes "[t] [mono_ms=2] [frame=1] [tid=1] a" ++ [LF]])] ++
       [ (codes "b.log", File [codes "[t] [mono_ms=2] [frame=1] [tid=1] b" ++ [LF]]);
         (codes "notes.txt", File []) ])
      ([ (codes "b.log", File [codes "[t] [mono_ms=2] [frame=1] [tid=1] b" ++ [LF]]);
         (codes "notes.txt", File []) ] ++
       [(codes "a.log", File [codes "[t] [mono_ms=2] [frame=1] [tid=1] a" ++ [LF]])])).
    apply Permutation_app_comm.
Defined.

(** ** What every run keeps *)

Lemma file_events_file p :
  Forall (fun e => file e = path_name p) (file_events p).
Proof.
  unfold file_events.
  destruct (snd p); [apply line_events_file | constructor | constructor].
Qed.

(** X12. Every record of the merged sequence of a run carries as source
    name the name of one of the entries of the directory, a name that ends
    in [.log]. *)
Theorem merged_events_sources : forall entries events e,
  merged_events (sorted_paths (glob_log entries)) = Ok events ->
  In e events ->
  ends_with (codes ".log") (file e) = true /\
  In (file e) (List.map path_name entries).
Proof.
  intros entries events e H He. unfold merged_events in H.
  destruct (ingest_cases (sorted_paths (glob_log entries)) []) as [[_ E] | [x E]];
    rewrite E in H; simpl in H; [|discriminate].
  inversion H; subst events. clear H.
  apply (Permutation_in _ (Permutation_sym (sort_events_perm _))) in He.
  apply in_flat_map in He. destruct He as (p & Hp & He).
  pose proof (file_events_file p) as Hf. rewrite Forall_forall in Hf.
  rewrite (Hf e He).
  apply (proj1 (sorted_paths_In p _)) in Hp.
  apply glob_log_In in Hp. destruct Hp as [Hp Hl].
  split; [exact Hl | now apply in_map].
Qed.

Lemma merged_events_sources_witness :
  ends_with (codes ".log") (codes "engine.log") = true /\
  In (codes "engine.log")
    (List.map path_name
       [ (codes "engine.log",
          File [codes "[t0] [mono_ms=100] [frame=1] [tid=5] hello" ++ [LF]]);
         (codes "readme", File [codes "[t0] [mono_ms=1] [frame=1] [tid=5] no" ++ [LF]]) ]).
Proof.
  apply (@merged_events_sources
           [ (codes "engine.log",
              File [codes "[t0] [mono_ms=100] [frame=1] [tid=5] hello" ++ [LF]]);
             (codes "readme", File [codes "[t0] [mono_ms=1] [frame=1] [tid=5] no" ++ [LF]]) ]
           [ {| file := codes "engine.log"; ts := codes "t0"; mono_ms := 100;
                frame := 1; tid := 5; msg := codes "hello" |} ]
           {| file := codes "engine.log"; ts := codes "t0"; mono_ms := 100;
              frame := 1; tid := 5; msg := codes "hello" |}).
  - reflexivity.
  - now left.
Defined.

(** X13. When no line of the log files matches the grammar, empty files
    included, the run still succeeds and its report is the fixed five lines:
    a total of 0, the two empty count sections and [  (none)]. *)
Theorem summarize_nothing_matched : forall log_files events,
  merged_events log_files = Ok events ->
  matching_line_count log_files = 0%nat ->
  events = [] /\ summarize events = empty_report.
Proof.
  intros log_files events H H0. unfold merged_events in H.
  destruct (ingest log_files []) as [all|x] eqn:E; simpl in H; [|discriminate].
  inversion H; subst events. clear H.
  apply ingest_length in E. simpl in E. rewrite H0 in E.
  destruct all; [|discriminate]. split; reflexivity.
Qed.

Lemma summarize_nothing_matched_witness :
  @nil event = [] /\ summarize [] = empty_report.
Proof.
  apply (@summarize_nothing_matched
           [ (codes "a.log", File [codes "noise" ++ [LF]; [LF]]);
             (codes "b.log", File []) ]
           []); reflexivity.
Defined.

(** ** What the counters hold *)

Section CounterContents.
Variable K : Type.
Variable eqb : K -> K -> bool.
Hypothesis eqb_eq : forall a b, eqb a b = true <-> a = b.

Lemma eqb_neq a b : eqb a b = false <-> a <> b.
Proof.
  destruct (eqb a b) eqn:E.
  - apply eqb_eq in E. split; congruence.
  - split; [|reflexivity]. intros _ H. apply eqb_eq in H. congruence.
Qed.

Lemma count_of_incr k x (c : counter K) :
  count_of eqb k (incr eqb x c) =
  count_of eqb k c + (if eqb x k then 1 else 0).
Proof.
  induction c as [|[k0 n] c IH]; simpl.
  - destruct (eqb x k); reflexivity.
  - destruct (eqb k0 x) eqn:E0; simpl.
    + apply eqb_eq in E0. subst k0.
      destruct (eqb x k); lia.
    + destruct (eqb k0 k) eqn:E1; [|exact IH].
      apply eqb_eq in E1. subst k0. rewrite (proj2 (eqb_neq x k)); [lia|].
      apply eqb_neq in E0. congruence.
Qed.

(** The counter holds for each key the number of times it was counted. *)
Lemma count_of_count_keys k ks :
  count_of eqb k (count_keys eqb ks) = times eqb k ks.
Proof.
  unfold times. induction ks as [|x ks IH] using rev_ind; [reflexivity|].
  rewrite count_keys_snoc, count_of_incr, IH, filter_app, length_app. simpl.
  destruct (eqb x k); simpl; lia.
Qed.

Lemma count_keys_nodup ks : NoDup (List.map fst (count_keys eqb ks)).
Proof.
  induction ks as [|x ks IH] using rev_ind; [constructor|].
  rewrite count_keys_snoc.
  destruct (@In_dec_eqb _ eqb eqb_eq x (List.map fst (count_keys eqb ks))) as [Hx|Hx].
  - now rewrite (@keys_incr_old _ eqb eqb_eq).
  - rewrite (@keys_incr_new _ eqb eqb_eq) by assumption.
    apply NoDup_app; [assumption | repeat constructor; auto |].
    intros a Ha [<-|[]]. contradiction.
Qed.

Lemma count_of_row k n (c : counter K) :
  NoDup (List.map fst c) -> In (k, n) c -> count_of eqb k c = n.
Proof.
  induction c as [|[k0 n0] c IH]; simpl; [tauto|].
  intros H Hin. inversion H as [|? ? Hk Hc]; subst.
  destruct Hin as [E|Hin].
  - inversion E; subst. now rewrite (proj2 (eqb_eq k k)).
  - rewrite (proj2 (eqb_neq k0 k)); [now apply IH|].
    intros ->. apply Hk. apply in_map_iff. now exists (k, n).
Qed.

(** The rows of [most_common] are the keys counted, each once, each with
    the number of its occurrences. *)
Lemma most_common_rows ks :
  NoDup (List.map fst (most_common (count_keys eqb ks))) /\
  forall k n,
    In (k, n) (most_common (count_keys eqb ks)) <->
    In k ks /\ n = times eqb k ks.
Proof.
  pose proof (count_keys_nodup ks) as Hnd.
  assert (Hperm : Permutation (count_keys eqb ks) (most_common (count_keys eqb ks)))
    by apply stable_sort_perm.
  split.
  - eapply Permutation_NoDup; [|exact Hnd]. now apply Permutation_map.
  - intros k n. unfold most_common. rewrite stable_sort_In. split.
    + intros Hin. split.
      * apply (@count_keys_In _ eqb eqb_eq). apply in_map_iff. now exists (k, n).
      * rewrite <- count_of_count_keys. symmetry. now apply count_of_row.
    + intros [Hk ->].
      apply (proj2 (@count_keys_In _ eqb eqb_eq k ks)) in Hk. apply in_map_iff in Hk.
      destruct Hk as ([k' n'] & E & Hin). simpl in E. subst k'.
      rewrite <- count_of_count_keys.
      now rewrite (@count_of_row k n' _ Hnd Hin).
Qed.

Lemma ordpairs_app_cross (A : Type) (R : A -> A -> Prop) (l1 l2 : list A) x y :
  ForallOrdPairs R (l1 ++ l2) -> In x l1 -> In y l2 -> R x y.
Proof.
  intros H Hx Hy.
  destruct (in_split _ _ Hx) as (a1 & a2 & ->).
  destruct (in_split _ _ Hy) as (b1 & b2 & ->).
  rewrite <- !app_assoc in H. simpl in H.
  rewrite app_assoc in H.
  now apply ordpairs_split in H.
Qed.

(** The first [n] rows of [most_common] hold the largest counts. *)
Lemma most_common_n_largest ks n k c k' :
  In (k, c) (most_common_n n (count_keys eqb ks)) ->
  In k' ks ->
  ~ In k' (List.map fst (most_common_n n (count_keys eqb ks))) ->
  times eqb k' ks <= c.
Proof.
  intros Hin Hk' Hnot. unfold most_common_n in *.
  set (full := most_common (count_keys eqb ks)) in *.
  assert (Hfull : In (k', times eqb k' ks) full)
    by (apply most_common_rows; auto).
  rewrite <- (firstn_skipn n full) in Hfull. apply in_app_or in Hfull.
  destruct Hfull as [Hf|Hs].
  - elim Hnot. apply in_map_iff. now exists (k', times eqb k' ks).
  - assert (H : ForallOrdPairs
                  (fun r1 r2 => snd r2 <= snd r1 /\ (snd r1 = snd r2 -> True))
                  (firstn n full ++ skipn n full)).
    { rewrite firstn_skipn. apply most_common_stably. now apply ordpairs_all. }
    apply (ordpairs_app_cross _ _ _ _ H Hin) in Hs. now destruct Hs.
Qed.

Lemma sum_counts_firstn n (l : list (K * N)) :
  sum_counts (firstn n l) <= sum_counts l.
Proof.
  revert l. induction n as [|n IH]; intros [|x l]; simpl; try lia.
  specialize (IH l). lia.
Qed.
End CounterContents.

(** ** The counts of the report, row by row *)

Lemma times_positive (K : Type) (eqb : K -> K -> bool) (k : K) ks :
  (forall a, eqb a a = true) -> In k ks -> 0 < times eqb k ks.
Proof.
  intros Hrefl Hin. unfold times.
  assert (H : In k (filter (fun x => eqb x k) ks))
    by (apply filter_In; auto).
  destruct (filter (fun x => eqb x k) ks); [contradiction | simpl; lia].
Qed.

(** X14. Under [events_by_component_log] every source name that occurs in
    the merged sequence has one row and only one, no other name has a row,
    and the count of a row is the number of records with that source name. *)
Theorem events_by_component_log_rows : forall events,
  NoDup (List.map fst (events_by_component_log events)) /\
  forall name n,
    In (name, n) (events_by_component_log events) <->
    In name (List.map file events) /\
    n = times str_eqb name (List.map file events).
Proof.
  intros events. rewrite events_by_component_log_keys.
  apply most_common_rows. exact str_eqb_eq.
Qed.

(** X15. Each row under [top_frames_by_event_count] gives a frame of the
    merged sequence with the number of its records, at least 1, and no frame
    left out of the list has more records than a frame in it. *)
Theorem top_frames_most_frequent : forall events fr n,
  In (fr, n) (top_frames_by_event_count events) ->
  In fr (List.map frame events) /\
  n = times N.eqb fr (List.map frame events) /\
  0 < n /\
  forall fr',
    In fr' (List.map frame events) ->
    ~ In fr' (List.map fst (top_frames_by_event_count events)) ->
    times N.eqb fr' (List.map frame events) <= n.
Proof.
  intros events fr n. rewrite top_frames_by_event_count_keys. intros Hin.
  assert (Hfull : In (fr, n) (most_common (count_keys N.eqb (List.map frame events)))).
  { unfold most_common_n in Hin.
    rewrite <- (firstn_skipn 10 (most_common _)). apply in_or_app. now left. }
  apply (proj2 (@most_common_rows _ N.eqb N.eqb_eq (List.map frame events))) in Hfull.
  destruct Hfull as [Hfr ->].
  split; [assumption|]. split; [reflexivity|]. split.
  - apply times_positive; [apply N.eqb_refl | assumption].
  - intros fr' Hfr' Hnot.
    exact (@most_common_n_largest _ N.eqb N.eqb_eq (List.map frame events) 10 fr _
             fr' Hin Hfr' Hnot).
Qed.

Lemma top_frames_most_frequent_witness :
  In 3 (List.map frame scenario6_events) /\
  2 = times N.eqb 3 (List.map frame scenario6_events) /\
  0 < 2 /\
  forall fr',
    In fr' (List.map frame scenario6_events) ->
    ~ In fr' (List.map fst (top_frames_by_event_count scenario6_events)) ->
    times N.eqb fr' (List.map frame scenario6_events) <= 2.
Proof.
  apply (@top_frames_most_frequent scenario6_events 3 2). now left.
Defined.

(** X16. The counts listed under [top_frames_by_event_count] never add up to
    more than [total_events], and they add up to it when fewer than ten
    frames are listed. *)
Theorem top_frames_within_total : forall events,
  sum_counts (top_frames_by_event_count events) <= total_events events /\
  ((length (top_frames_by_event_count events) < 10)%nat ->
   sum_counts (top_frames_by_event_count events) = total_events events).
Proof.
  intros events. rewrite top_frames_by_event_count_keys.
  unfold most_common_n, total_events.
  set (full := most_common (count_keys N.eqb (List.map frame events))).
  assert (Hsum : sum_counts full = N.of_nat (length events)).
  { unfold full. rewrite sum_counts_most_common.
    now rewrite (sum_counts_count_keys N.eqb), length_map. }
  split.
  - rewrite <- Hsum. apply sum_counts_firstn.
  - intros Hlt. rewrite length_firstn in Hlt.
    rewrite firstn_all2 by lia. exact Hsum.
Qed.

(** ** Records already in order *)

Lemma sort_events_sorted_input (l : list event) :
  adjacent_pairs key_le l -> sort_events l = l.
Proof.
  unfold sort_events. induction l as [|x l IH]; intros H; [reflexivity|].
  simpl. rewrite IH.
  - destruct l as [|y l]; [reflexivity|]. simpl.
    rewrite key_le_ltb; [reflexivity|].
    now apply (H [] x y l).
  - intros l1 a b l2 E. apply (H (x :: l1) a b l2). now rewrite E.
Qed.

(** X17. When the records of the log files, taken in the order in which
    they are read, are already in ascending key order, the merge leaves every
    record where it was. *)
Theorem merged_events_keeps_sorted : forall log_files events,
  merged_events log_files = Ok events ->
  adjacent_pairs key_le (flat_map file_events log_files) ->
  events = flat_map file_events log_files.
Proof.
  intros log_files events H Hs. unfold merged_events in H.
  destruct (ingest_cases log_files []) as [[_ E] | [x E]];
    rewrite E in H; simpl in H; [|discriminate].
  inversion H. now apply sort_events_sorted_input.
Qed.

Lemma merged_events_keeps_sorted_witness :
  [ {| file := codes "a.log"; ts := codes "t"; mono_ms := 1; frame := 1;
       tid := 1; msg := codes "x" |};
    {| file := codes "a.log"; ts := codes "t"; mono_ms := 1; frame := 1;
       tid := 2; msg := codes "y" |} ] =
  flat_map file_events
    [(codes "a.log",
      File [ codes "[t] [mono_ms=1] [frame=1] [tid=1] x" ++ [LF];
             codes "[t] [mono_ms=1] [frame=1] [tid=2] y" ++ [LF] ])].
Proof.
  apply (@merged_events_keeps_sorted
           [(codes "a.log",
             File [ codes "[t] [mono_ms=1] [frame=1] [tid=1] x" ++ [LF];
                    codes "[t] [mono_ms=1] [frame=1] [tid=2] y" ++ [LF] ])]).
  - reflexivity.
  - intros l1 a b l2 E.
    destruct l1 as [|c [|c' l1]]; inversion E; subst.
    + right. split; [reflexivity|]. right. split; [reflexivity|].
      repeat (apply str_le_eq). apply str_le_nil.
    + destruct l1; discriminate.
Defined.
